(** * Verification of sfc8-cycles.c

    A shallow embedding of the seed-space scanner for the sfc8 generator:
    the generator step, the state encoding, the 2^32-bit visited array,
    the trace loop, the cache of the longest cycles seen so far
    ([update_tested_cycles], [check_existing_arrays]) and the per-seed
    driver [test_seed_for_cycle] together with [main]'s loop.

    Machine integers are modelled as [Z] with their truncation written
    out; [size_t] lengths and counters as [nat]. *)

From Stdlib Require Import ZArith Lia List Bool Arith.
Import ListNotations.

(* ------------------------------------------------------------------ *)
(** ** 8-bit and 32-bit arithmetic *)

Open Scope Z_scope.

(** Conversion of an [int] result to [uint8_t]. *)
Definition u8 (x : Z) : Z := Z.land x 255.

Definition is_u8 (x : Z) : Prop := 0 <= x < 256.

(** [typedef struct sfc8_s { uint8_t a, b, c, d; } sfc8_t;] *)
Record sfc8_t := mk_sfc8 { a : Z; b : Z; c : Z; d : Z }.

Definition wf_state (s : sfc8_t) : Prop :=
  is_u8 (a s) /\ is_u8 (b s) /\ is_u8 (c s) /\ is_u8 (d s).

(** [sfc8_advance]: the operands are promoted to [int]; each store into a
    [uint8_t] field truncates.  [d++] is a post-increment, so [temp] uses
    the old [d]. *)
Definition sfc8_advance (s : sfc8_t) : sfc8_t :=
  let temp := u8 (a s + b s + d s) in
  let d' := u8 (d s + 1) in
  let a' := u8 (Z.lxor (b s) (Z.shiftr (b s) 2)) in
  let b' := u8 (c s + Z.shiftl (c s) 1) in
  let c' := u8 (temp + Z.lor (Z.shiftl (c s) 3) (Z.shiftr (c s) 5)) in
  mk_sfc8 a' b' c' d'.

(** [encode_state]: [result = a | b << 8 | c << 16 | d << 24] into a
    [uint32_t].  ([d << 24] is computed in [int]; for [d >= 128] this is
    signed overflow in ISO C, and the usual two's-complement result is
    taken here, which is the bit pattern stored into [result].) *)
Definition encode_state (s : sfc8_t) : Z :=
  let result := a s in
  let result := Z.lor result (Z.shiftl (b s) 8) in
  let result := Z.lor result (Z.shiftl (c s) 16) in
  let result := Z.lor result (Z.shiftl (d s) 24) in
  Z.land result (Z.ones 32).

(** The inverse of [encode_state] (not in the source; the spec requires it
    to exist). *)
Definition decode_state (k : Z) : sfc8_t :=
  mk_sfc8 (Z.land k 255) (Z.land (Z.shiftr k 8) 255)
          (Z.land (Z.shiftr k 16) 255) (Z.land (Z.shiftr k 24) 255).

(** The transition as the spec writes it, with an explicit 8-bit rotate. *)
Definition rotate_left8 (x r : Z) : Z :=
  Z.lor (Z.land (Z.shiftl x r) 255) (Z.shiftr x (8 - r)).

Definition spec_advance (s : sfc8_t) : sfc8_t :=
  let t := (a s + b s + d s) mod 256 in
  let d' := (d s + 1) mod 256 in
  mk_sfc8 (Z.lxor (b s) (Z.shiftr (b s) 2))
          ((c s + Z.shiftl (c s) 1) mod 256)
          ((t + rotate_left8 (c s) 3) mod 256)
          d'.

(** The inverse step (not in the source): [b ^ (b >> 2)] is undone by
    xoring the shifts by 2, 4 and 6, [3 * c] by multiplying by [171]
    ([3 * 171 = 1 mod 256]), and [c' = temp + rotl(c, 3)] by subtracting. *)
Definition unxorshift8 (x : Z) : Z :=
  Z.lxor x (Z.lxor (Z.shiftr x 2) (Z.lxor (Z.shiftr x 4) (Z.shiftr x 6))).

Definition sfc8_retreat (s : sfc8_t) : sfc8_t :=
  let d0 := u8 (d s - 1) in
  let c0 := u8 (171 * b s) in
  let b0 := unxorshift8 (a s) in
  let a0 := u8 (c s - Z.lor (Z.shiftl c0 3) (Z.shiftr c0 5) - b0 - d0) in
  mk_sfc8 a0 b0 c0 d0.

(* ------------------------------------------------------------------ *)
(** ** Bit vectors

    [uint64_t *array]: [2^26] words of 64 bits, modelled as a function
    from word index to word. *)

Definition bitarray := Z -> Z.

Definition WORD_INDEX (value : Z) : Z := Z.shiftr value 6.

Definition BIT_INDEX (value : Z) : Z := Z.land value 63.

(** [BIT_ARRAY_LENGTH = ((size_t)POSSIBLE_STATES + 1) / 64] *)
Definition BIT_ARRAY_LENGTH : Z := (2 ^ 32 + 1) / 64.

(** [array[word_index] = w] *)
Definition store_word (array : bitarray) (word_index w : Z) : bitarray :=
  fun j => if Z.eqb j word_index then w else array j.

(** [test_and_set_bit]: returns the previous bit and the updated array. *)
Definition test_and_set_bit (array : bitarray) (position : Z) : bool * bitarray :=
  let bit_word := Z.shiftl 1 (BIT_INDEX position) in
  let word_index := WORD_INDEX position in
  let array_word := array word_index in
  let array' := store_word array word_index (Z.lor array_word bit_word) in
  (negb (Z.land array_word bit_word =? 0), array').

Definition test_bit (array : bitarray) (position : Z) : bool :=
  let bit_word := Z.shiftl 1 (BIT_INDEX position) in
  let word_index := WORD_INDEX position in
  let array_word := array word_index in
  negb (Z.land array_word bit_word =? 0).

(** [memset(array, 0, BIT_ARRAY_SIZE)] *)
Definition zero_array : bitarray := fun _ => 0.

(* ------------------------------------------------------------------ *)
(** ** The trace loop of [test_seed_for_cycle]

    [for (length_counter = 0; length_counter < POSSIBLE_STATES;
          length_counter++) { collision = test_and_set_bit(...);
          if (collision) break; sfc8_advance(&state); }]
    The fuel is [POSSIBLE_STATES - length_counter]. *)

Definition POSSIBLE_STATES : nat := Nat.pow 2 32.

Fixpoint trace_loop (fuel length_counter : nat) (array : bitarray)
    (state : sfc8_t) : nat * bitarray :=
  match fuel with
  | O => (length_counter, array)
  | S fuel' =>
      let (collision, array') := test_and_set_bit array (encode_state state) in
      if collision then (length_counter, array')
      else trace_loop fuel' (S length_counter) array' (sfc8_advance state)
  end.

(** The loop run from [length_counter = 0]: the final counter and the
    array, which becomes the cycle's fingerprint. *)
Definition run_trace (array : bitarray) (state : sfc8_t) : nat * bitarray :=
  trace_loop POSSIBLE_STATES 0 array state.

(** The states visited from [s]: [s], [advance s], ..., [n] of them. *)
Fixpoint orbit (s : sfc8_t) (n : nat) : list sfc8_t :=
  match n with
  | O => []
  | S n' => s :: orbit (sfc8_advance s) n'
  end.

(** [array] has exactly the bits of [keys] set. *)
Definition bits_model (array : bitarray) (keys : list Z) : Prop :=
  forall k, 0 <= k -> test_bit array k = true <-> In k keys.

(* ------------------------------------------------------------------ *)
(** ** The cache of the longest cycles

    A bit array allocated by [malloc] is identified by a pointer [ptr];
    [NULL] is [None].  The three globals [tested_cycle_bit_arrays],
    [saved_cycle_lengths] and [saved_array_count] form a [cache]; both
    arrays have [ARRAYS_TO_STORE] entries. *)

Definition ptr := nat.

Definition ARRAYS_TO_STORE : nat := 7.

Record cache := mk_cache {
  tested_cycle_bit_arrays : list (option ptr);
  saved_cycle_lengths : list nat;
  saved_array_count : nat }.

(** The globals as [main] sets them up: all slots [NULL], lengths [0]. *)
Definition empty_cache : cache :=
  mk_cache (repeat None ARRAYS_TO_STORE) (repeat 0%nat ARRAYS_TO_STORE) 0.

(** [l[i] = x] *)
Fixpoint set_nth {A : Type} (l : list A) (i : nat) (x : A) : list A :=
  match l, i with
  | [], _ => []
  | _ :: t, O => x :: t
  | h :: t, S i' => h :: set_nth t i' x
  end.

(** The [for (position = 0; position < ARRAYS_TO_STORE; position++)] loop
    of [update_tested_cycles].  The fuel is [ARRAYS_TO_STORE - position].
    It returns [did_updates], the new cache and the pointers passed to
    [free], most recent first. *)
Fixpoint update_loop (fuel position : nat) (arrays : list (option ptr))
    (lengths : list nat) (count : nat) (array_to_consider : ptr)
    (current_cycle_length : nat) (did_updates : bool) (freed : list ptr)
    : bool * cache * list ptr :=
  match fuel with
  | O => (did_updates, mk_cache arrays lengths count, freed)
  | S fuel' =>
      let compared_cycle_length := nth position lengths 0%nat in
      if Nat.ltb compared_cycle_length current_cycle_length then
        let prev_bit_array := nth position arrays None in
        let arrays' := set_nth arrays position (Some array_to_consider) in
        let lengths' := set_nth lengths position current_cycle_length in
        match prev_bit_array with
        | Some prev =>
            if Nat.eqb position (ARRAYS_TO_STORE - 1) then
              (* last slot: free(prev_bit_array) *)
              update_loop fuel' (S position) arrays' lengths' count
                array_to_consider current_cycle_length true (prev :: freed)
            else
              update_loop fuel' (S position) arrays' lengths' count
                prev compared_cycle_length true freed
        | None =>
            (* saved_array_count++; break; *)
            (true, mk_cache arrays' lengths' (S count), freed)
        end
      else
        update_loop fuel' (S position) arrays lengths count
          array_to_consider current_cycle_length did_updates freed
  end.

(** [update_tested_cycles]: the scratch array [cycle_bit_array] is offered
    to the cache with length [cycle_length]. *)
Definition update_tested_cycles (cc : cache) (cycle_bit_array : ptr)
    (cycle_length : nat) : bool * cache * list ptr :=
  if Nat.eqb (saved_array_count cc) 0 then
    (true,
     mk_cache (set_nth (tested_cycle_bit_arrays cc) 0 (Some cycle_bit_array))
              (set_nth (saved_cycle_lengths cc) 0 cycle_length) 1,
     [])
  else
    update_loop ARRAYS_TO_STORE 0 (tested_cycle_bit_arrays cc)
      (saved_cycle_lengths cc) (saved_array_count cc) cycle_bit_array
      cycle_length false [].

(** A sequence of calls [(array, length)], from a given cache. *)
Definition run_updates (calls : list (ptr * nat)) (cc : cache) : cache :=
  fold_left (fun cc' call => snd (fst (update_tested_cycles cc' (fst call) (snd call))))
    calls cc.

(** The loop of [check_existing_arrays] from [array_idx], with
    [remaining = saved_array_count - array_idx]; it returns the index left
    in [*ret_array_idx] when it returns [true].  A [NULL] slot is never met
    below [saved_array_count] (see [cache_inv]); it is skipped here. *)
Fixpoint check_loop (heap : ptr -> bitarray) (arrays : list (option ptr))
    (array_idx remaining : nat) (encoded_state : Z) : option nat :=
  match remaining with
  | O => None
  | S remaining' =>
      match nth array_idx arrays None with
      | Some p =>
          if test_bit (heap p) encoded_state then Some array_idx
          else check_loop heap arrays (S array_idx) remaining' encoded_state
      | None => check_loop heap arrays (S array_idx) remaining' encoded_state
      end
  end.

Definition check_existing_arrays (heap : ptr -> bitarray) (cc : cache)
    (state : sfc8_t) : option nat :=
  check_loop heap (tested_cycle_bit_arrays cc) 0 (saved_array_count cc)
    (encode_state state).

(** Retained record [i] has the bit of [key] set. *)
Definition fingerprint_has (heap : ptr -> bitarray) (cc : cache) (i : nat)
    (key : Z) : Prop :=
  exists p, nth i (tested_cycle_bit_arrays cc) None = Some p /\
            test_bit (heap p) key = true.

(** The largest length among the retained records (ranks below
    [saved_array_count]); [0] for the empty cache. *)
Fixpoint max_upto (n : nat) (lengths : list nat) : nat :=
  match n with
  | O => 0%nat
  | S n' => Nat.max (max_upto n' lengths) (nth n' lengths 0%nat)
  end.

Definition max_retained (cc : cache) : nat :=
  max_upto (saved_array_count cc) (saved_cycle_lengths cc).

(** Shape of the cache: ranks below [saved_array_count] hold an array,
    ranks above are [NULL] with length [0], lengths are non-increasing. *)
Definition cache_inv (cc : cache) : Prop :=
  length (tested_cycle_bit_arrays cc) = ARRAYS_TO_STORE /\
  length (saved_cycle_lengths cc) = ARRAYS_TO_STORE /\
  (saved_array_count cc <= ARRAYS_TO_STORE)%nat /\
  (forall i, (i < saved_array_count cc)%nat ->
     nth i (tested_cycle_bit_arrays cc) None <> None) /\
  (forall i, (saved_array_count cc <= i)%nat ->
     nth i (tested_cycle_bit_arrays cc) None = None /\
     nth i (saved_cycle_lengths cc) 0%nat = 0%nat) /\
  (forall i j, (i <= j)%nat ->
     (nth j (saved_cycle_lengths cc) 0 <= nth i (saved_cycle_lengths cc) 0)%nat).

(* ------------------------------------------------------------------ *)
(** ** The seed scanner: [test_seed_for_cycle] and [main]

    The memory holding bit arrays is a [heap] from pointers to arrays.
    [malloc] hands out a fresh pointer whose block holds indeterminate
    contents, given by [malloc_contents]; allocation failure ([exit(1)])
    is not modelled. *)

Record scanner := mk_scanner {
  heap : ptr -> bitarray;
  cycle_bit_array : ptr;          (* the live scratch array *)
  next_ptr : ptr;                 (* the next pointer [malloc] returns *)
  cache_of : cache;
  released : list ptr }.          (* pointers passed to [free] *)

Definition heap_store (h : ptr -> bitarray) (p : ptr) (v : bitarray)
    : ptr -> bitarray :=
  fun q => if Nat.eqb q p then v else h q.

(** [state.a = (uint8_t)seed; ...; state.d = 1;] *)
Definition seed_state (seed : Z) : sfc8_t :=
  mk_sfc8 (Z.land seed 255) (Z.land (Z.shiftr seed 8) 255)
          (Z.land (Z.shiftr seed 16) 255) 1.

Section Scanner.

Variable malloc_contents : ptr -> bitarray.

(** [test_seed_for_cycle]: the reported length, [*was_on_known_cycle], and
    the state of the globals afterwards. *)
Definition test_seed_for_cycle (st : scanner) (seed : Z) : nat * bool * scanner :=
  let state := seed_state seed in
  let cc := cache_of st in
  let hit :=
    if Nat.ltb 0 (saved_array_count cc)
    then check_existing_arrays (heap st) cc state else None in
  match hit with
  | Some return_index =>
      (nth return_index (saved_cycle_lengths cc) 0%nat, true, st)
  | None =>
      (* memset(cycle_bit_array, 0, BIT_ARRAY_SIZE) *)
      let heap1 := heap_store (heap st) (cycle_bit_array st) zero_array in
      let (length_counter, fingerprint) :=
        run_trace (heap1 (cycle_bit_array st)) state in
      let heap2 := heap_store heap1 (cycle_bit_array st) fingerprint in
      match update_tested_cycles cc (cycle_bit_array st) length_counter with
      | (true, cc', freed) =>
          (* cycle_bit_array = malloc(BIT_ARRAY_SIZE) *)
          let p := next_ptr st in
          (length_counter, false,
           mk_scanner (heap_store heap2 p (malloc_contents p)) p (S p) cc'
                      (freed ++ released st))
      | (false, cc', freed) =>
          (length_counter, false,
           mk_scanner heap2 (cycle_bit_array st) (next_ptr st) cc'
                      (freed ++ released st))
      end
  end.

(** [main] before the loop: all slots [NULL] and the first scratch array
    obtained from [malloc]. *)
Definition main_init : scanner :=
  mk_scanner malloc_contents 0%nat 1%nat empty_cache [].

(** The globals after [main] has processed seeds [0 .. n-1]. *)
Fixpoint main_scan (n : nat) : scanner :=
  match n with
  | O => main_init
  | S n' => snd (test_seed_for_cycle (main_scan n') (Z.of_nat n'))
  end.

End Scanner.

(** Invariant of [update_loop] at [position]: the shape of [cache_inv],
    and the length in hand is at most every length above [position]. *)
Definition loop_inv (position : nat) (arrays : list (option ptr))
    (lengths : list nat) (count current : nat) : Prop :=
  cache_inv (mk_cache arrays lengths count) /\
  (forall i, (i < position)%nat -> (current <= nth i lengths 0)%nat).

(** Pointers of the globals: the scratch array and every retained array
    were returned by earlier [malloc] calls, and no retained array is the
    scratch array. *)
Definition alias_inv (st : scanner) : Prop :=
  (cycle_bit_array st < next_ptr st)%nat /\
  forall i q, nth i (tested_cycle_bit_arrays (cache_of st)) None = Some q ->
    (q < next_ptr st)%nat /\ q <> cycle_bit_array st.

(** Every retained array holds the fingerprint a trace from some state
    leaves, and the length stored at its rank is that trace's length. *)
Definition fingerprint_inv (st : scanner) : Prop :=
  forall i q, nth i (tested_cycle_bit_arrays (cache_of st)) None = Some q ->
    exists s, wf_state s /\
      heap st q = snd (run_trace zero_array s) /\
      nth i (saved_cycle_lengths (cache_of st)) 0%nat = fst (run_trace zero_array s).

(* ------------------------------------------------------------------ *)
(** * Proofs *)

Example advance_ex :
  sfc8_advance (mk_sfc8 1 2 3 4) = spec_advance (mk_sfc8 1 2 3 4).
Proof. reflexivity. Qed.

Example encode_ex : encode_state (mk_sfc8 1 2 3 200) = 3355640321.
Proof. reflexivity. Qed.

Lemma land_255_mod (x : Z) : Z.land x 255 = x mod 256.
Proof. change 255 with (Z.ones 8). rewrite Z.land_ones by lia. reflexivity. Qed.

Lemma lor_shiftl_add (x y w : Z) :
  0 <= w -> 0 <= x < 2 ^ w -> Z.lor x (Z.shiftl y w) = x + y * 2 ^ w.
Proof.
  intros Hw Hx.
  rewrite Z.shiftl_mul_pow2 by lia.
  assert (Hd : Z.land x (y * 2 ^ w) = 0).
  { apply Z.bits_inj'. intros n Hn. rewrite Z.land_spec, Z.bits_0.
    destruct (Z.lt_ge_cases n w) as [Hlt | Hge].
    - rewrite <- Z.shiftl_mul_pow2 by lia.
      rewrite Z.shiftl_spec_low by lia. apply andb_false_r.
    - rewrite <- (Z.mod_small x (2 ^ w)) by lia.
      rewrite Z.mod_pow2_bits_high by lia. reflexivity. }
  rewrite <- Z.lxor_lor by exact Hd.
  rewrite <- Z.add_nocarry_lxor by exact Hd. reflexivity.
Qed.

Lemma encode_state_arith (s : sfc8_t) :
  wf_state s ->
  encode_state s = a s + b s * 2 ^ 8 + c s * 2 ^ 16 + d s * 2 ^ 24.
Proof.
  destruct s as [a0 b0 c0 d0]; unfold wf_state, is_u8, encode_state; cbn [a b c d].
  intros (Ha & Hb & Hc & Hd).
  rewrite (lor_shiftl_add a0 b0 8) by lia.
  rewrite (lor_shiftl_add (a0 + b0 * 2 ^ 8) c0 16) by lia.
  rewrite (lor_shiftl_add (a0 + b0 * 2 ^ 8 + c0 * 2 ^ 16) d0 24) by lia.
  rewrite Z.land_ones by lia. apply Z.mod_small. lia.
Qed.

Lemma decode_encode_state (s : sfc8_t) :
  wf_state s -> decode_state (encode_state s) = s.
Proof.
  intros Hwf. rewrite encode_state_arith by exact Hwf.
  destruct s as [a0 b0 c0 d0]; unfold wf_state, is_u8 in Hwf; simpl in *.
  unfold decode_state. rewrite !land_255_mod, !Z.shiftr_div_pow2 by lia.
  f_equal; Z.div_mod_to_equations; lia.
Qed.

Lemma land_255_small (x : Z) : 0 <= x < 256 -> Z.land x 255 = x.
Proof. intros H. rewrite land_255_mod. apply Z.mod_small. exact H. Qed.

Lemma land_255_lxor_small (x y : Z) :
  0 <= x < 256 -> 0 <= y < 256 -> Z.land (Z.lxor x y) 255 = Z.lxor x y.
Proof.
  intros Hx Hy. change 255 with (Z.ones 8).
  apply Z.bits_inj'. intros n Hn. rewrite Z.land_spec.
  destruct (Z.lt_ge_cases n 8) as [Hlt | Hge].
  - rewrite Z.ones_spec_low by lia. apply andb_true_r.
  - rewrite Z.ones_spec_high by lia. rewrite andb_false_r, Z.lxor_spec.
    rewrite <- (Z.mod_small x (2 ^ 8)), <- (Z.mod_small y (2 ^ 8)) by (cbn; lia).
    rewrite !Z.mod_pow2_bits_high by lia. reflexivity.
Qed.

(** ** C1 *)

(** C1: for every state with 8-bit fields, [sfc8_advance] equals the spec's
    transition: [t = a + b + d] with the old [d], then [d + 1], and
    [a' = b ^ (b >> 2)], [b' = c + (c << 1)], [c' = t + rotl8(c, 3)], all
    modulo 256, each new field computed from the old fields. *)
Theorem sfc8_advance_bit_exact (s : sfc8_t) :
  wf_state s -> sfc8_advance s = spec_advance s.
Proof.
  destruct s as [a0 b0 c0 d0]; unfold wf_state, is_u8; cbn [a b c d].
  intros (Ha & Hb & Hc & Hd).
  unfold sfc8_advance, spec_advance, u8, rotate_left8; cbn [a b c d].
  f_equal.
  - apply land_255_lxor_small; [lia|].
    rewrite Z.shiftr_div_pow2 by lia. Z.div_mod_to_equations; lia.
  - apply land_255_mod.
  - rewrite !land_255_mod. change (8 - 3) with 5.
    assert (HR : Z.lor (Z.shiftl c0 3 mod 256) (Z.shiftr c0 5)
                 = Z.lor (Z.shiftl c0 3) (Z.shiftr c0 5) mod 256).
    { rewrite <- !land_255_mod, Z.land_lor_distr_l.
      rewrite (land_255_small (Z.shiftr c0 5)); [reflexivity|].
      rewrite Z.shiftr_div_pow2 by lia. Z.div_mod_to_equations; lia. }
    rewrite HR, Zplus_mod_idemp_r, Zplus_mod_idemp_l. reflexivity.
  - apply land_255_mod.
Qed.

Lemma sfc8_advance_bit_exact_witness :
  wf_state (mk_sfc8 200 17 255 255) /\
  sfc8_advance (mk_sfc8 200 17 255 255) = spec_advance (mk_sfc8 200 17 255 255).
Proof.
  assert (H : wf_state (mk_sfc8 200 17 255 255))
    by (unfold wf_state, is_u8; cbn; lia).
  split; [exact H | apply sfc8_advance_bit_exact; exact H].
Defined.

Lemma decode_state_wf (k : Z) : wf_state (decode_state k).
Proof.
  unfold wf_state, decode_state, is_u8; cbn [a b c d].
  rewrite !land_255_mod. repeat split; apply Z.mod_pos_bound; lia.
Qed.

Lemma encode_decode_state (k : Z) :
  0 <= k < 2 ^ 32 -> encode_state (decode_state k) = k.
Proof.
  intros Hk. rewrite encode_state_arith by apply decode_state_wf.
  unfold decode_state; cbn [a b c d].
  rewrite !land_255_mod, !Z.shiftr_div_pow2 by lia.
  Z.div_mod_to_equations; lia.
Qed.

(** ** C9 *)

(** C9: on states with 8-bit fields, [encode_state] places [a], [b], [c],
    [d] in bits 0-7, 8-15, 16-23, 24-31 of a 32-bit key, two states have the
    same key only if they are equal, [decode_state] inverts it, and every
    32-bit key is the encoding of the state it decodes to. *)
Theorem encode_state_bijection (s1 s2 : sfc8_t) :
  wf_state s1 -> wf_state s2 ->
  encode_state s1 = a s1 + b s1 * 2 ^ 8 + c s1 * 2 ^ 16 + d s1 * 2 ^ 24 /\
  0 <= encode_state s1 < 2 ^ 32 /\
  decode_state (encode_state s1) = s1 /\
  (encode_state s1 = encode_state s2 <-> s1 = s2) /\
  (forall k, 0 <= k < 2 ^ 32 ->
     wf_state (decode_state k) /\ encode_state (decode_state k) = k).
Proof.
  intros H1 H2. split; [|split; [|split; [|split]]].
  - apply encode_state_arith; exact H1.
  - rewrite encode_state_arith by exact H1.
    destruct H1 as (Ha & Hb & Hc & Hd); unfold is_u8 in *; lia.
  - apply decode_encode_state; exact H1.
  - split; [|intros ->; reflexivity].
    intros He. rewrite <- (decode_encode_state s1 H1), <- (decode_encode_state s2 H2).
    rewrite He. reflexivity.
  - intros k Hk. split; [apply decode_state_wf | apply encode_decode_state; exact Hk].
Qed.

Lemma encode_state_bijection_witness :
  wf_state (mk_sfc8 1 2 3 200) /\ wf_state (mk_sfc8 255 0 0 128) /\
  decode_state (encode_state (mk_sfc8 1 2 3 200)) = mk_sfc8 1 2 3 200.
Proof.
  assert (H1 : wf_state (mk_sfc8 1 2 3 200)) by (unfold wf_state, is_u8; cbn; lia).
  assert (H2 : wf_state (mk_sfc8 255 0 0 128)) by (unfold wf_state, is_u8; cbn; lia).
  split; [exact H1 | split; [exact H2 |]].
  apply (encode_state_bijection _ _ H1 H2).
Defined.

(** ** Bit vector lemmas *)

Lemma mask_testbit (w i : Z) :
  0 <= i -> negb (Z.land w (Z.shiftl 1 i) =? 0) = Z.testbit w i.
Proof.
  intros Hi. rewrite Z.shiftl_1_l.
  destruct (Z.testbit w i) eqn:E.
  - destruct (Z.eqb_spec (Z.land w (2 ^ i)) 0) as [H0 | H0]; [|reflexivity].
    exfalso. assert (Ht : Z.testbit (Z.land w (2 ^ i)) i = true).
    { rewrite Z.land_spec, E, Z.pow2_bits_true by lia. reflexivity. }
    rewrite H0, Z.bits_0 in Ht. discriminate.
  - replace (Z.land w (2 ^ i)) with 0; [reflexivity|].
    apply Z.bits_inj'. intros n Hn.
    rewrite Z.bits_0, Z.land_spec, Z.pow2_bits_eqb by lia.
    destruct (Z.eqb_spec i n) as [-> | _]; [rewrite E|rewrite andb_false_r]; reflexivity.
Qed.

Lemma position_split (p : Z) :
  0 <= p -> p = WORD_INDEX p * 64 + BIT_INDEX p /\ 0 <= BIT_INDEX p < 64.
Proof.
  intros Hp. unfold WORD_INDEX, BIT_INDEX.
  change 63 with (Z.ones 6). rewrite Z.land_ones, Z.shiftr_div_pow2 by lia.
  Z.div_mod_to_equations; lia.
Qed.

Lemma test_bit_testbit (array : bitarray) (p : Z) :
  0 <= p -> test_bit array p = Z.testbit (array (WORD_INDEX p)) (BIT_INDEX p).
Proof.
  intros Hp. unfold test_bit. apply mask_testbit.
  apply (position_split p Hp).
Qed.

Lemma test_and_set_bit_fst (array : bitarray) (p : Z) :
  fst (test_and_set_bit array p) = test_bit array p.
Proof. reflexivity. Qed.

Lemma test_and_set_bit_snd (array : bitarray) (p q : Z) :
  0 <= p -> 0 <= q ->
  test_bit (snd (test_and_set_bit array p)) q = (p =? q) || test_bit array q.
Proof.
  intros Hp Hq. rewrite !test_bit_testbit by exact Hq.
  pose proof (position_split p Hp) as [Ep Bp].
  pose proof (position_split q Hq) as [Eq Bq].
  unfold test_and_set_bit, store_word; cbn [snd].
  destruct (Z.eqb_spec (WORD_INDEX q) (WORD_INDEX p)) as [Hw | Hw].
  - rewrite Z.lor_spec, Z.shiftl_1_l, Z.pow2_bits_eqb by lia.
    rewrite Hw.
    destruct (Z.eqb_spec (BIT_INDEX p) (BIT_INDEX q));
      destruct (Z.eqb_spec p q); try lia;
      rewrite ?orb_true_r, ?orb_false_r; reflexivity.
  - destruct (Z.eqb_spec p q); [rewrite <- e in Hw; congruence | reflexivity].
Qed.

Lemma test_bit_zero_array (p : Z) : test_bit zero_array p = false.
Proof. reflexivity. Qed.

(** ** The trace loop *)

Lemma POSSIBLE_STATES_Z : Z.of_nat POSSIBLE_STATES = 2 ^ 32.
Proof. unfold POSSIBLE_STATES. rewrite Nat2Z.inj_pow. reflexivity. Qed.

Lemma sfc8_advance_wf (s : sfc8_t) : wf_state (sfc8_advance s).
Proof.
  unfold wf_state, sfc8_advance, u8, is_u8; cbn [a b c d].
  rewrite !land_255_mod. repeat split; apply Z.mod_pos_bound; lia.
Qed.

Lemma iter_advance_wf (n : nat) (s : sfc8_t) :
  wf_state s -> wf_state (Nat.iter n sfc8_advance s).
Proof.
  intros H. destruct n as [|n]; [exact H|]. rewrite Nat.iter_succ.
  apply sfc8_advance_wf.
Qed.

Lemma encode_state_range (s : sfc8_t) :
  wf_state s -> 0 <= encode_state s < 2 ^ 32.
Proof.
  intros H. rewrite encode_state_arith by exact H.
  destruct H as (Ha & Hb & Hc & Hd); unfold is_u8 in *; lia.
Qed.

Lemma encode_state_inj (s1 s2 : sfc8_t) :
  wf_state s1 -> wf_state s2 -> encode_state s1 = encode_state s2 -> s1 = s2.
Proof.
  intros H1 H2 He.
  rewrite <- (decode_encode_state s1 H1), <- (decode_encode_state s2 H2), He.
  reflexivity.
Qed.

Lemma orbit_length (s : sfc8_t) (n : nat) : length (orbit s n) = n.
Proof. revert s; induction n as [|n IH]; intros s; simpl; [|rewrite IH]; reflexivity. Qed.

Lemma orbit_S_r (s : sfc8_t) (n : nat) :
  orbit s (S n) = orbit s n ++ [Nat.iter n sfc8_advance s].
Proof.
  revert s; induction n as [|n IH]; intros s; [reflexivity|].
  change (orbit s (S (S n))) with (s :: orbit (sfc8_advance s) (S n)).
  rewrite IH, Nat.iter_swap. reflexivity.
Qed.

Lemma orbit_wf (s x : sfc8_t) (n : nat) :
  wf_state s -> In x (orbit s n) -> wf_state x.
Proof.
  revert s; induction n as [|n IH]; intros s Hs Hin; [destruct Hin|].
  destruct Hin as [<- | Hin]; [exact Hs|].
  apply (IH (sfc8_advance s)); [apply sfc8_advance_wf | exact Hin].
Qed.

Lemma NoDup_snoc (l : list Z) (x : Z) :
  NoDup l -> ~ In x l -> NoDup (l ++ [x]).
Proof.
  intros Hl Hx. apply NoDup_app; [exact Hl | constructor; [intros []|constructor] |].
  intros y Hy [<- | []]. exact (Hx Hy).
Qed.

Lemma trace_loop_spec (fuel k : nat) (array : bitarray) (s0 : sfc8_t) :
  wf_state s0 ->
  NoDup (map encode_state (orbit s0 k)) ->
  bits_model array (map encode_state (orbit s0 k)) ->
  let n := fst (trace_loop fuel k array (Nat.iter k sfc8_advance s0)) in
  (k <= n <= k + fuel)%nat /\
  NoDup (map encode_state (orbit s0 n)) /\
  (n = (k + fuel)%nat \/
   In (encode_state (Nat.iter n sfc8_advance s0)) (map encode_state (orbit s0 n))).
Proof.
  revert k array. induction fuel as [|fuel IH]; intros k array Hs0 Hnd Hm n.
  - subst n; cbn. split; [lia | split; [exact Hnd | left; lia]].
  - subst n; cbn [trace_loop].
    set (st := Nat.iter k sfc8_advance s0).
    assert (Hst : wf_state st) by (apply iter_advance_wf; exact Hs0).
    pose proof (encode_state_range st Hst) as Hr.
    pose proof (test_and_set_bit_fst array (encode_state st)) as Hf.
    pose proof (test_and_set_bit_snd array (encode_state st)) as Hsn.
    destruct (test_and_set_bit array (encode_state st)) as [collision array'].
    cbn [fst snd] in Hf, Hsn. destruct collision.
    + cbn [fst]. fold st. split; [lia | split; [exact Hnd | right]].
      apply Hm; [lia | symmetry; exact Hf].
    + change (sfc8_advance st) with (Nat.iter (S k) sfc8_advance s0).
      assert (Hnot : ~ In (encode_state st) (map encode_state (orbit s0 k))).
      { intros Hin. apply Hm in Hin; [|lia]. congruence. }
      destruct (IH (S k) array' Hs0) as (H1 & H2 & H3).
      * rewrite orbit_S_r, map_app. apply NoDup_snoc; assumption.
      * intros q Hq. rewrite Hsn by lia. rewrite orbit_S_r, map_app, in_app_iff.
        rewrite orb_true_iff, (Hm q Hq), Z.eqb_eq. cbn. intuition.
      * split; [lia | split; [exact H2 |]].
        destruct H3 as [H3 | H3]; [left; lia | right; exact H3].
Qed.

Lemma keys_pigeonhole (l : list Z) :
  NoDup l -> length l = POSSIBLE_STATES ->
  (forall x, In x l -> 0 <= x < 2 ^ 32) ->
  forall y, 0 <= y < 2 ^ 32 -> In y l.
Proof.
  intros Hnd Hlen Hrange y Hy.
  pose proof POSSIBLE_STATES_Z as HP.
  set (r := map Z.of_nat (seq 0 POSSIBLE_STATES)).
  assert (Hincl : incl r l).
  { apply NoDup_length_incl; [exact Hnd | unfold r; rewrite length_map, length_seq; lia |].
    intros x Hx. apply Hrange in Hx. unfold r. apply in_map_iff.
    exists (Z.to_nat x). split; [lia | apply in_seq; lia]. }
  apply Hincl. unfold r. apply in_map_iff.
  exists (Z.to_nat y). split; [lia | apply in_seq; lia].
Qed.

(** ** C3 *)

(** C3: from any initial state and the all-zero array, the trace loop stops
    after at most [2^32] steps; the returned length [n] is such that the
    states [s, advance s, ..., advance^(n-1) s] are pairwise distinct (and so
    are their keys), and the state reached after [n] steps is one of them:
    [n] is the number of distinct states visited before the first repeated
    key. *)
Theorem trace_length_distinct (s : sfc8_t) :
  wf_state s ->
  let n := fst (run_trace zero_array s) in
  (n <= POSSIBLE_STATES)%nat /\
  NoDup (orbit s n) /\
  NoDup (map encode_state (orbit s n)) /\
  In (Nat.iter n sfc8_advance s) (orbit s n).
Proof.
  intros Hs. cbv zeta. unfold run_trace.
  pose proof (trace_loop_spec POSSIBLE_STATES 0 zero_array s Hs) as Hspec.
  change (Nat.iter 0 sfc8_advance s) with s in Hspec. cbv zeta in Hspec.
  set (n := fst (trace_loop POSSIBLE_STATES 0 zero_array s)) in *.
  destruct Hspec as (H1 & H2 & H3).
  - constructor.
  - intros k _. rewrite test_bit_zero_array. cbn. split; [discriminate | intros []].
  - 
    assert (Hin : In (encode_state (Nat.iter n sfc8_advance s))
                     (map encode_state (orbit s n))).
    { destruct H3 as [H3 | H3]; [|exact H3].
      apply keys_pigeonhole.
      - exact H2.
      - rewrite length_map, orbit_length. lia.
      - intros x Hx. apply in_map_iff in Hx as (y & <- & Hy).
        apply encode_state_range. exact (orbit_wf s y n Hs Hy).
      - apply encode_state_range, iter_advance_wf. exact Hs. }
    split; [lia | split; [exact (NoDup_map_inv _ _ H2) | split; [exact H2 |]]].
    apply in_map_iff in Hin as (y & Hy & Hyin).
    rewrite <- (encode_state_inj y (Nat.iter n sfc8_advance s)); [exact Hyin | | |].
    + exact (orbit_wf s y n Hs Hyin).
    + apply iter_advance_wf. exact Hs.
    + exact Hy.
Qed.

Lemma trace_length_distinct_witness :
  wf_state (mk_sfc8 0 0 0 1) /\
  (fst (run_trace zero_array (mk_sfc8 0 0 0 1)) <= POSSIBLE_STATES)%nat.
Proof.
  assert (H : wf_state (mk_sfc8 0 0 0 1)) by (unfold wf_state, is_u8; cbn; lia).
  split; [exact H | exact (proj1 (trace_length_distinct _ H))].
Defined.

(** ** Lookup in the cache *)

Lemma check_loop_some (heap : ptr -> bitarray) (arrays : list (option ptr))
    (k r i : nat) (key : Z) :
  check_loop heap arrays k r key = Some i ->
  (k <= i < k + r)%nat /\
  (exists p, nth i arrays None = Some p /\ test_bit (heap p) key = true) /\
  (forall j, (k <= j < i)%nat ->
     ~ exists p, nth j arrays None = Some p /\ test_bit (heap p) key = true).
Proof.
  revert k. induction r as [|r IH]; intros k H; [discriminate|].
  cbn [check_loop] in H.
  destruct (nth k arrays None) as [p|] eqn:Ek; [destruct (test_bit (heap p) key) eqn:Et|].
  - injection H as <-. split; [lia | split; [exists p; split; assumption |]].
    intros j Hj. lia.
  - destruct (IH (S k) H) as (H1 & H2 & H3).
    split; [lia | split; [exact H2 |]].
    intros j Hj (p' & Ep' & Tp').
    destruct (Nat.eq_dec j k) as [-> | Hne].
    + rewrite Ek in Ep'. injection Ep' as <-. congruence.
    + apply (H3 j); [lia | exists p'; split; assumption].
  - destruct (IH (S k) H) as (H1 & H2 & H3).
    split; [lia | split; [exact H2 |]].
    intros j Hj (p' & Ep' & Tp').
    destruct (Nat.eq_dec j k) as [-> | Hne].
    + congruence.
    + apply (H3 j); [lia | exists p'; split; assumption].
Qed.

Lemma check_loop_none (heap : ptr -> bitarray) (arrays : list (option ptr))
    (k r : nat) (key : Z) :
  check_loop heap arrays k r key = None <->
  (forall j, (k <= j < k + r)%nat ->
     ~ exists p, nth j arrays None = Some p /\ test_bit (heap p) key = true).
Proof.
  revert k. induction r as [|r IH]; intros k; cbn [check_loop].
  - split; [intros _ j Hj; lia | reflexivity].
  - destruct (nth k arrays None) as [p|] eqn:Ek;
      [destruct (test_bit (heap p) key) eqn:Et|].
    + split; [discriminate|]. intros H. exfalso.
      apply (H k); [lia | exists p; split; assumption].
    + rewrite IH. split.
      * intros H j Hj (p' & Ep' & Tp').
        destruct (Nat.eq_dec j k) as [-> | Hne].
        -- rewrite Ek in Ep'. injection Ep' as <-. congruence.
        -- apply (H j); [lia | exists p'; split; assumption].
      * intros H j Hj. apply H. lia.
    + rewrite IH. split.
      * intros H j Hj (p' & Ep' & Tp').
        destruct (Nat.eq_dec j k) as [-> | Hne].
        -- congruence.
        -- apply (H j); [lia | exists p'; split; assumption].
      * intros H j Hj. apply H. lia.
Qed.

(** ** C4 *)

(** C4: [check_existing_arrays] returns rank [i] exactly when [i] is the
    lowest retained rank whose fingerprint has the key's bit set, and
    reports no hit exactly when no retained fingerprint has it; and
    [test_seed_for_cycle] performs this lookup on the seed's initial state
    first: on a hit it returns the length stored at that rank with
    [was_on_known_cycle = true] and leaves every global (scratch array,
    cache, memory) untouched, so no trace is run; on a miss it reports
    [was_on_known_cycle = false]. *)
Theorem lookup_first_hit (hp : ptr -> bitarray) (cc : cache) (state : sfc8_t) :
  (forall i,
     check_existing_arrays hp cc state = Some i <->
     (i < saved_array_count cc)%nat /\
     fingerprint_has hp cc i (encode_state state) /\
     (forall j, (j < i)%nat -> ~ fingerprint_has hp cc j (encode_state state))) /\
  (check_existing_arrays hp cc state = None <->
     forall j, (j < saved_array_count cc)%nat ->
       ~ fingerprint_has hp cc j (encode_state state)) /\
  (forall malloc_contents st seed,
     match check_existing_arrays (heap st) (cache_of st) (seed_state seed) with
     | Some i =>
         test_seed_for_cycle malloc_contents st seed =
           (nth i (saved_cycle_lengths (cache_of st)) 0%nat, true, st)
     | None => snd (fst (test_seed_for_cycle malloc_contents st seed)) = false
     end).
Proof.
  split; [|split].
  - intros i. unfold check_existing_arrays, fingerprint_has. split.
    + intros H. destruct (check_loop_some _ _ _ _ _ _ H) as (H1 & H2 & H3).
      split; [lia | split; [exact H2 |]]. intros j Hj. apply H3. lia.
    + intros (H1 & H2 & H3).
      destruct (check_loop hp (tested_cycle_bit_arrays cc) 0 (saved_array_count cc)
                  (encode_state state)) as [i'|] eqn:E.
      * destruct (check_loop_some _ _ _ _ _ _ E) as (H1' & H2' & H3').
        f_equal. destruct (Nat.lt_trichotomy i i') as [Hlt | [Heq | Hgt]].
        -- exfalso. apply (H3' i); [lia | exact H2].
        -- symmetry. exact Heq.
        -- exfalso. apply (H3 i'); [lia | exact H2'].
      * exfalso. apply (proj1 (check_loop_none _ _ _ _ _) E i); [lia | exact H2].
  - unfold check_existing_arrays, fingerprint_has. rewrite check_loop_none.
    split; intros H j Hj; apply H; lia.
  - intros mc st seed.
    cbv beta zeta delta [test_seed_for_cycle].
    destruct (Nat.ltb 0 (saved_array_count (cache_of st))) eqn:Ec.
    + destruct (check_existing_arrays (heap st) (cache_of st) (seed_state seed)) as [i|].
      * reflexivity.
      * destruct (run_trace _ _) as [n fp].
        destruct (update_tested_cycles _ _ _) as [[[|] cc'] fr]; reflexivity.
    + apply Nat.ltb_ge in Ec.
      assert (E0 : check_existing_arrays (heap st) (cache_of st) (seed_state seed) = None).
      { unfold check_existing_arrays. replace (saved_array_count (cache_of st)) with 0%nat
          by lia. reflexivity. }
      rewrite E0.
      destruct (run_trace _ _) as [n fp].
      destruct (update_tested_cycles _ _ _) as [[[|] cc'] fr]; reflexivity.
Qed.

Lemma lookup_first_hit_witness :
  check_existing_arrays (fun _ _ => -1)
    (mk_cache (Some 3%nat :: repeat None 6) (5%nat :: repeat 0%nat 6) 1)
    (mk_sfc8 0 0 0 1) = Some 0%nat /\
  (0 < saved_array_count
         (mk_cache (Some 3%nat :: repeat None 6) (5%nat :: repeat 0%nat 6) 1))%nat.
Proof.
  split; [reflexivity|].
  exact (proj1 (proj1 (proj1 (lookup_first_hit (fun _ _ => -1)
     (mk_cache (Some 3%nat :: repeat None 6) (5%nat :: repeat 0%nat 6) 1)
     (mk_sfc8 0 0 0 1)) 0%nat) eq_refl)).
Defined.

(** ** Lists updated by index *)

Lemma length_set_nth {A : Type} (l : list A) (i : nat) (x : A) :
  length (set_nth l i x) = length l.
Proof.
  revert i; induction l as [|h t IH]; intros [|i]; cbn; rewrite ?IH; reflexivity.
Qed.

Lemma nth_set_nth_eq {A : Type} (l : list A) (i : nat) (x d : A) :
  (i < length l)%nat -> nth i (set_nth l i x) d = x.
Proof.
  revert i; induction l as [|h t IH]; intros [|i] Hi; cbn in *; try lia.
  - reflexivity.
  - apply IH. lia.
Qed.

Lemma nth_set_nth_neq {A : Type} (l : list A) (i j : nat) (x d : A) :
  i <> j -> nth j (set_nth l i x) d = nth j l d.
Proof.
  revert i j; induction l as [|h t IH]; intros [|i] [|j] Hij; cbn; try reflexivity.
  - congruence.
  - apply IH. congruence.
Qed.

Ltac nth_set :=
  repeat first
    [ rewrite nth_set_nth_eq by (rewrite ?length_set_nth; lia)
    | rewrite nth_set_nth_neq by lia ].

(** ** The cache invariant *)

Lemma update_loop_inv (fuel position : nat) (arrays : list (option ptr))
    (lengths : list nat) (count : nat) (cand : ptr) (current : nat)
    (did : bool) (freed : list ptr) :
  (position + fuel = ARRAYS_TO_STORE)%nat ->
  loop_inv position arrays lengths count current ->
  cache_inv (snd (fst (update_loop fuel position arrays lengths count cand
                         current did freed))).
Proof.
  revert position arrays lengths cand current did freed.
  induction fuel as [|fuel IH];
    intros position arrays lengths cand current did freed Hpf
      ((Hla & Hll & Hc & Hpre & Hsuf & Hsort) & Hcur);
    cbn [tested_cycle_bit_arrays saved_cycle_lengths saved_array_count] in *.
  - exact (conj Hla (conj Hll (conj Hc (conj Hpre (conj Hsuf Hsort))))).
  - cbn [update_loop]. unfold ARRAYS_TO_STORE in *.
    set (compared := nth position lengths 0%nat).
    destruct (Nat.ltb_spec compared current) as [Hlt | Hge].
    + destruct (nth position arrays None) as [prev|] eqn:Ep.
      * assert (Hpos : (position < count)%nat).
        { destruct (Nat.lt_ge_cases position count) as [H|H]; [exact H|].
          rewrite (proj1 (Hsuf position H)) in Ep. discriminate. }
        assert (Hinv : forall cur', (cur' <= current)%nat ->
                  loop_inv (S position) (set_nth arrays position (Some cand))
                    (set_nth lengths position current) count cur').
        { intros cur' H1. unfold loop_inv, cache_inv, ARRAYS_TO_STORE.
          cbn [tested_cycle_bit_arrays saved_cycle_lengths saved_array_count].
          split; [split; [|split; [|split; [|split; [|split]]]] |].
          - rewrite length_set_nth. exact Hla.
          - rewrite length_set_nth. exact Hll.
          - exact Hc.
          - intros i Hi. destruct (Nat.eq_dec i position) as [->|Hne];
              nth_set; [discriminate | apply Hpre; exact Hi].
          - intros i Hi. nth_set. apply Hsuf. exact Hi.
          - intros i j Hij.
            destruct (Nat.eq_dec i position) as [->|Hi];
              destruct (Nat.eq_dec j position) as [->|Hj]; nth_set.
            + lia.
            + pose proof (Hsort position j Hij). unfold compared in Hlt. lia.
            + apply Hcur. lia.
            + apply Hsort. exact Hij.
          - intros i Hi. destruct (Nat.eq_dec i position) as [->|Hne]; nth_set.
            + exact H1.
            + pose proof (Hcur i ltac:(lia)). lia. }
        destruct (Nat.eqb_spec position (7 - 1)).
        -- apply IH; [lia | apply Hinv; lia].
        -- apply IH; [lia | apply Hinv; unfold compared; lia].
      * assert (Hpos : position = count).
        { destruct (Nat.lt_trichotomy position count) as [H|[H|H]]; [|exact H|].
          - exfalso. exact (Hpre position H Ep).
          - exfalso. pose proof (Hcur count H) as H1.
            rewrite (proj2 (Hsuf count ltac:(lia))) in H1.
            unfold compared in Hlt. rewrite (proj2 (Hsuf position ltac:(lia))) in Hlt.
            lia. }
        subst position. unfold cache_inv, ARRAYS_TO_STORE.
        cbn [fst snd tested_cycle_bit_arrays saved_cycle_lengths saved_array_count].
        split; [|split; [|split; [|split; [|split]]]].
        -- rewrite length_set_nth. exact Hla.
        -- rewrite length_set_nth. exact Hll.
        -- lia.
        -- intros i Hi. destruct (Nat.eq_dec i count) as [->|Hne];
             nth_set; [discriminate | apply Hpre; lia].
        -- intros i Hi. nth_set. apply Hsuf. lia.
        -- intros i j Hij.
           destruct (Nat.eq_dec i count) as [->|Hi];
             destruct (Nat.eq_dec j count) as [->|Hj]; nth_set.
           ++ lia.
           ++ rewrite (proj2 (Hsuf j ltac:(lia))). lia.
           ++ apply Hcur. lia.
           ++ apply Hsort. exact Hij.
    + apply IH; [lia|].
      split; [exact (conj Hla (conj Hll (conj Hc (conj Hpre (conj Hsuf Hsort))))) |].
      intros i Hi. destruct (Nat.eq_dec i position) as [->|Hne].
      * exact Hge.
      * apply Hcur. lia.
Qed.

Lemma update_tested_cycles_inv (cc : cache) (p : ptr) (len : nat) :
  cache_inv cc -> cache_inv (snd (fst (update_tested_cycles cc p len))).
Proof.
  destruct cc as [arrays lengths count].
  intros (Hla & Hll & Hc & Hpre & Hsuf & Hsort);
    cbn [tested_cycle_bit_arrays saved_cycle_lengths saved_array_count] in *.
  unfold update_tested_cycles;
    cbn [tested_cycle_bit_arrays saved_cycle_lengths saved_array_count].
  destruct (Nat.eqb_spec count 0) as [-> | Hne].
  - unfold cache_inv, ARRAYS_TO_STORE in *.
    cbn [fst snd tested_cycle_bit_arrays saved_cycle_lengths saved_array_count].
    split; [|split; [|split; [|split; [|split]]]].
    + rewrite length_set_nth. exact Hla.
    + rewrite length_set_nth. exact Hll.
    + lia.
    + intros i Hi. replace i with 0%nat by lia. nth_set. discriminate.
    + intros i Hi. nth_set. apply Hsuf. lia.
    + intros i j Hij. destruct (Nat.eq_dec j 0) as [->|Hj].
      * replace i with 0%nat by lia. lia.
      * nth_set. rewrite (proj2 (Hsuf j ltac:(lia))). lia.
  - apply update_loop_inv; [reflexivity|].
    split; [exact (conj Hla (conj Hll (conj Hc (conj Hpre (conj Hsuf Hsort))))) |].
    intros i Hi. lia.
Qed.

Lemma empty_cache_inv : cache_inv empty_cache.
Proof.
  unfold cache_inv, empty_cache, ARRAYS_TO_STORE;
    cbn [tested_cycle_bit_arrays saved_cycle_lengths saved_array_count].
  split; [reflexivity | split; [reflexivity | split; [lia | split; [|split]]]].
  - intros i Hi. lia.
  - intros i _. rewrite !nth_repeat. split; reflexivity.
  - intros i j _. rewrite !nth_repeat. lia.
Qed.

Lemma run_updates_inv (calls : list (ptr * nat)) (cc : cache) :
  cache_inv cc -> cache_inv (run_updates calls cc).
Proof.
  unfold run_updates. revert cc.
  induction calls as [|[p len] calls IH]; intros cc H; cbn [fold_left]; [exact H|].
  apply IH. apply update_tested_cycles_inv. exact H.
Qed.

(** ** C6 *)

(** C6: after any sequence of [update_tested_cycles] calls from the empty
    cache, the lengths of the retained records are non-increasing in rank:
    for ranks [i < j] below [saved_array_count], the length at [i] is at
    least the length at [j]. *)
Theorem saved_lengths_sorted (calls : list (ptr * nat)) (i j : nat) :
  (i < j < saved_array_count (run_updates calls empty_cache))%nat ->
  (nth j (saved_cycle_lengths (run_updates calls empty_cache)) 0 <=
   nth i (saved_cycle_lengths (run_updates calls empty_cache)) 0)%nat.
Proof.
  intros Hij.
  destruct (run_updates_inv calls empty_cache empty_cache_inv)
    as (_ & _ & _ & _ & _ & Hsort).
  apply Hsort. lia.
Qed.

Lemma saved_lengths_sorted_witness :
  (0 < 1 < saved_array_count
             (run_updates [(1%nat, 4%nat); (2%nat, 9%nat); (3%nat, 4%nat)] empty_cache))%nat /\
  (nth 1 (saved_cycle_lengths
            (run_updates [(1%nat, 4%nat); (2%nat, 9%nat); (3%nat, 4%nat)] empty_cache)) 0 <=
   nth 0 (saved_cycle_lengths
            (run_updates [(1%nat, 4%nat); (2%nat, 9%nat); (3%nat, 4%nat)] empty_cache)) 0)%nat.
Proof.
  assert (H : (0 < 1 < saved_array_count
             (run_updates [(1%nat, 4%nat); (2%nat, 9%nat); (3%nat, 4%nat)] empty_cache))%nat)
    by (vm_compute; lia).
  split; [exact H | exact (saved_lengths_sorted _ 0 1 H)].
Defined.

(** ** Growth of the cache *)

Lemma set_nth_ge (l : list nat) (p x : nat) :
  (nth p l 0 <= x)%nat -> forall i, (nth i l 0 <= nth i (set_nth l p x) 0)%nat.
Proof.
  revert p; induction l as [|h t IH]; intros [|p] Hp [|i]; cbn in *; try lia.
  - apply IH. exact Hp.
Qed.

Lemma update_loop_mono (fuel position : nat) (arrays : list (option ptr))
    (lengths : list nat) (count : nat) (cand : ptr) (current : nat)
    (did : bool) (freed : list ptr) :
  let cc' := snd (fst (update_loop fuel position arrays lengths count cand
                         current did freed)) in
  (count <= saved_array_count cc')%nat /\
  (forall i, (nth i lengths 0 <= nth i (saved_cycle_lengths cc') 0)%nat).
Proof.
  revert position arrays lengths cand current did freed.
  induction fuel as [|fuel IH]; intros position arrays lengths cand current did freed cc'.
  - subst cc'. cbn. split; [lia | intros i; lia].
  - subst cc'. cbn [update_loop].
    destruct (Nat.ltb_spec (nth position lengths 0%nat) current) as [Hlt | Hge].
    + assert (Hset := set_nth_ge lengths position current ltac:(lia)).
      destruct (nth position arrays None) as [prev|].
      * destruct (Nat.eqb position (ARRAYS_TO_STORE - 1)).
        -- edestruct IH as [H1 H2]. split; [exact H1|].
           intros i. eapply Nat.le_trans; [apply Hset | apply H2].
        -- edestruct IH as [H1 H2]. split; [exact H1|].
           intros i. eapply Nat.le_trans; [apply Hset | apply H2].
      * cbn. split; [lia | exact Hset].
    + apply IH.
Qed.

Lemma update_tested_cycles_mono (cc : cache) (p : ptr) (len : nat) :
  cache_inv cc ->
  let cc' := snd (fst (update_tested_cycles cc p len)) in
  (saved_array_count cc <= saved_array_count cc')%nat /\
  (forall i, (nth i (saved_cycle_lengths cc) 0 <= nth i (saved_cycle_lengths cc') 0)%nat).
Proof.
  intros (_ & _ & _ & _ & Hsuf & _) cc'. subst cc'.
  unfold update_tested_cycles.
  destruct (Nat.eqb_spec (saved_array_count cc) 0) as [E | _].
  - cbn [fst snd saved_array_count saved_cycle_lengths]. split; [lia|].
    apply set_nth_ge. rewrite (proj2 (Hsuf 0%nat ltac:(lia))). lia.
  - apply update_loop_mono.
Qed.

Lemma max_upto_le_pointwise (n : nat) (l l' : list nat) :
  (forall i, (nth i l 0 <= nth i l' 0)%nat) -> (max_upto n l <= max_upto n l')%nat.
Proof.
  intros H. induction n as [|n IH]; cbn; [lia|].
  specialize (H n). lia.
Qed.

Lemma max_upto_le_prefix (n m : nat) (l : list nat) :
  (n <= m)%nat -> (max_upto n l <= max_upto m l)%nat.
Proof.
  intros H. induction H as [|m H IH]; cbn; lia.
Qed.

(** The cache after one call of [test_seed_for_cycle]: unchanged on a hit,
    the result of [update_tested_cycles] on the scratch array on a miss. *)
Lemma test_seed_for_cycle_cache (mc : ptr -> bitarray) (st : scanner) (seed : Z) :
  cache_of (snd (test_seed_for_cycle mc st seed)) = cache_of st \/
  exists len, cache_of (snd (test_seed_for_cycle mc st seed)) =
              snd (fst (update_tested_cycles (cache_of st) (cycle_bit_array st) len)).
Proof.
  cbv beta zeta delta [test_seed_for_cycle].
  destruct (if Nat.ltb 0 (saved_array_count (cache_of st)) then _ else None) as [i|].
  - left. reflexivity.
  - right. destruct (run_trace _ _) as [n fp]. exists n.
    destruct (update_tested_cycles _ _ _) as [[[|] cc'] fr]; reflexivity.
Qed.

Lemma main_scan_inv (mc : ptr -> bitarray) (n : nat) :
  cache_inv (cache_of (main_scan mc n)).
Proof.
  induction n as [|n IH]; [exact empty_cache_inv|].
  cbn [main_scan].
  destruct (test_seed_for_cycle_cache mc (main_scan mc n) (Z.of_nat n)) as [-> | (len & ->)].
  - exact IH.
  - apply update_tested_cycles_inv. exact IH.
Qed.

(** ** C7 *)

(** C7: along [main]'s scan, the largest length retained in the cache
    never decreases from one seed to the next, and the cache never holds
    more than [ARRAYS_TO_STORE = 7] records. *)
Theorem scan_max_monotone_bounded (mc : ptr -> bitarray) (n : nat) :
  (max_retained (cache_of (main_scan mc n)) <=
   max_retained (cache_of (main_scan mc (S n))))%nat /\
  (saved_array_count (cache_of (main_scan mc n)) <= ARRAYS_TO_STORE)%nat.
Proof.
  pose proof (main_scan_inv mc n) as Hinv.
  split; [| exact (proj1 (proj2 (proj2 Hinv)))].
  cbn [main_scan]. unfold max_retained.
  destruct (test_seed_for_cycle_cache mc (main_scan mc n) (Z.of_nat n)) as [-> | (len & ->)].
  - lia.
  - destruct (update_tested_cycles_mono (cache_of (main_scan mc n))
                (cycle_bit_array (main_scan mc n)) len Hinv) as [H1 H2].
    eapply Nat.le_trans; [apply max_upto_le_prefix; exact H1 |].
    apply max_upto_le_pointwise. exact H2.
Qed.

(** ** C2 *)

(** C2 (evaluation of the code at a failing input): seven arrays [0..6]
    are offered with length [1] to the empty cache, which then holds all
    of them; array [7] is then offered with length [2].  It takes rank 0,
    the array [0] it displaces ties with every lower rank and is never
    placed again: it ends neither in the cache nor in [free], while the
    bottom-rank array [6] stays. *)
Theorem update_drops_displaced_record :
  let cc := run_updates [(0%nat, 1%nat); (1%nat, 1%nat); (2%nat, 1%nat);
                         (3%nat, 1%nat); (4%nat, 1%nat); (5%nat, 1%nat);
                         (6%nat, 1%nat)] empty_cache in
  cc = mk_cache (map Some [0; 1; 2; 3; 4; 5; 6]%nat) (repeat 1%nat 7) 7 /\
  update_tested_cycles cc 7%nat 2%nat =
    (true, mk_cache (map Some [7; 1; 2; 3; 4; 5; 6]%nat)
                    (2%nat :: repeat 1%nat 6) 7, []).
Proof. vm_compute. split; reflexivity. Qed.

(** ** The scanner on a cache miss *)

Lemma trace_loop_ge (fuel k : nat) (array : bitarray) (s : sfc8_t) :
  (k <= fst (trace_loop fuel k array s))%nat.
Proof.
  revert k array s. induction fuel as [|fuel IH]; intros k array s; cbn [trace_loop].
  - cbn. lia.
  - destruct (test_and_set_bit array (encode_state s)) as [[|] array'].
    + cbn. lia.
    + specialize (IH (S k) array' (sfc8_advance s)). lia.
Qed.

Lemma encode_state_nonneg (s : sfc8_t) : 0 <= encode_state s.
Proof.
  unfold encode_state. rewrite Z.land_ones by lia. apply Z.mod_pos_bound. lia.
Qed.

Lemma trace_loop_first_fresh (fuel k : nat) (array : bitarray) (s : sfc8_t) :
  test_bit array (encode_state s) = false ->
  (S k <= fst (trace_loop (S fuel) k array s))%nat.
Proof.
  intros Ht. cbn [trace_loop].
  pose proof (test_and_set_bit_fst array (encode_state s)) as Hf.
  rewrite Ht in Hf.
  destruct (test_and_set_bit array (encode_state s)) as [collision array'].
  cbn [fst] in Hf. subst collision. cbv beta iota. apply trace_loop_ge.
Qed.

Lemma run_trace_zero_pos (s : sfc8_t) :
  (1 <= fst (run_trace zero_array s))%nat.
Proof.
  pose proof POSSIBLE_STATES_Z as HZ.
  assert (HP : POSSIBLE_STATES = S (Nat.pred POSSIBLE_STATES)) by lia.
  unfold run_trace. rewrite HP.
  apply trace_loop_first_fresh. apply test_bit_zero_array.
Qed.

Lemma test_seed_for_cycle_miss (mc : ptr -> bitarray) (st : scanner) (seed : Z) :
  check_existing_arrays (heap st) (cache_of st) (seed_state seed) = None ->
  test_seed_for_cycle mc st seed =
    let (n, fp) := run_trace zero_array (seed_state seed) in
    let heap2 := heap_store (heap_store (heap st) (cycle_bit_array st) zero_array)
                   (cycle_bit_array st) fp in
    match update_tested_cycles (cache_of st) (cycle_bit_array st) n with
    | (true, cc', freed) =>
        (n, false, mk_scanner (heap_store heap2 (next_ptr st) (mc (next_ptr st)))
                     (next_ptr st) (S (next_ptr st)) cc' (freed ++ released st))
    | (false, cc', freed) =>
        (n, false, mk_scanner heap2 (cycle_bit_array st) (next_ptr st) cc'
                     (freed ++ released st))
    end.
Proof.
  intros Hmiss. cbv beta zeta delta [test_seed_for_cycle].
  replace (if Nat.ltb 0 (saved_array_count (cache_of st))
           then check_existing_arrays (heap st) (cache_of st) (seed_state seed)
           else None) with (@None nat)
    by (destruct (Nat.ltb _ _); [rewrite Hmiss|]; reflexivity).
  replace (heap_store (heap st) (cycle_bit_array st) zero_array (cycle_bit_array st))
    with zero_array by (unfold heap_store; rewrite Nat.eqb_refl; reflexivity).
  reflexivity.
Qed.

(** ** C10 *)

(** C10: on a cache miss the scratch array is cleared by [memset] before
    the trace, so the reported length is that of the trace from the
    all-zero array, whatever the scratch array held before (marks of an
    earlier trace or a fresh [malloc] block); the seed is reported as new
    and its length is at least 1. *)
Theorem traced_seed_length_pos (mc : ptr -> bitarray) (st : scanner) (seed : Z) :
  check_existing_arrays (heap st) (cache_of st) (seed_state seed) = None ->
  fst (fst (test_seed_for_cycle mc st seed)) = fst (run_trace zero_array (seed_state seed)) /\
  snd (fst (test_seed_for_cycle mc st seed)) = false /\
  (1 <= fst (fst (test_seed_for_cycle mc st seed)))%nat.
Proof.
  intros Hmiss. rewrite (test_seed_for_cycle_miss mc st seed Hmiss).
  pose proof (run_trace_zero_pos (seed_state seed)) as Hpos. revert Hpos.
  destruct (run_trace zero_array (seed_state seed)) as [n fp]. cbn [fst].
  intros Hpos.
  destruct (update_tested_cycles (cache_of st) (cycle_bit_array st) n)
    as [[[|] cc'] fr]; cbn [fst snd]; split; try split; try reflexivity; exact Hpos.
Qed.

Lemma traced_seed_length_pos_witness :
  check_existing_arrays (heap (main_init (fun _ _ => Z.ones 64)))
    (cache_of (main_init (fun _ _ => Z.ones 64))) (seed_state 0) = None /\
  (1 <= fst (fst (test_seed_for_cycle (fun _ _ => Z.ones 64)
                    (main_init (fun _ _ => Z.ones 64)) 0)))%nat.
Proof.
  assert (H : check_existing_arrays (heap (main_init (fun _ _ => Z.ones 64)))
                (cache_of (main_init (fun _ _ => Z.ones 64))) (seed_state 0) = None)
    by reflexivity.
  split; [exact H | exact (proj2 (proj2 (traced_seed_length_pos _ _ _ H)))].
Defined.

(** ** C5 *)

(** C5 (counterexample): an array fresh from [malloc] is not zeroed; with
    the block holding all ones, the scratch array [main] starts with has
    bit 0 set. *)
Lemma malloc_array_not_zeroed :
  ~ (forall (mc : ptr -> bitarray) (k : Z),
       test_bit (heap (main_init mc) (cycle_bit_array (main_init mc))) k = false).
Proof.
  intros H. specialize (H (fun _ _ => Z.ones 64) 0). vm_compute in H. discriminate H.
Qed.

(** C5 (amended): a miss stores in the old scratch array exactly the marks
    of a trace started from the all-zero array, whatever the array held
    (its contents are unspecified after [malloc]); when the trace is
    retained, the new scratch array is a fresh [malloc] block whose contents
    are left as [malloc] returned them. *)
Theorem scratch_cleared_before_trace (mc : ptr -> bitarray) (st : scanner) (seed : Z) :
  (cycle_bit_array st < next_ptr st)%nat ->
  check_existing_arrays (heap st) (cache_of st) (seed_state seed) = None ->
  let st' := snd (test_seed_for_cycle mc st seed) in
  (forall k, test_bit zero_array k = false) /\
  heap st' (cycle_bit_array st) = snd (run_trace zero_array (seed_state seed)) /\
  (cycle_bit_array st' = cycle_bit_array st \/
   (cycle_bit_array st' = next_ptr st /\
    heap st' (cycle_bit_array st') = mc (next_ptr st))).
Proof.
  intros Hlt Hmiss st'. subst st'.
  rewrite (test_seed_for_cycle_miss mc st seed Hmiss).
  split; [exact test_bit_zero_array|].
  destruct (run_trace zero_array (seed_state seed)) as [n fp]. cbn [snd].
  destruct (update_tested_cycles (cache_of st) (cycle_bit_array st) n)
    as [[[|] cc'] fr]; cbn [snd heap cycle_bit_array]; unfold heap_store.
  - destruct (Nat.eqb_spec (cycle_bit_array st) (next_ptr st)); [lia|].
    rewrite !Nat.eqb_refl. split; [reflexivity | right; split; reflexivity].
  - rewrite Nat.eqb_refl. split; [reflexivity | left; reflexivity].
Qed.

Lemma scratch_cleared_before_trace_witness :
  (cycle_bit_array (main_init (fun _ _ => Z.ones 64)) <
   next_ptr (main_init (fun _ _ => Z.ones 64)))%nat /\
  check_existing_arrays (heap (main_init (fun _ _ => Z.ones 64)))
    (cache_of (main_init (fun _ _ => Z.ones 64))) (seed_state 5) = None /\
  (forall k, test_bit zero_array k = false).
Proof.
  assert (H1 : (cycle_bit_array (main_init (fun _ _ => Z.ones 64)) <
                next_ptr (main_init (fun _ _ => Z.ones 64)))%nat) by (cbn; lia).
  assert (H2 : check_existing_arrays (heap (main_init (fun _ _ => Z.ones 64)))
                 (cache_of (main_init (fun _ _ => Z.ones 64))) (seed_state 5) = None)
    by reflexivity.
  split; [exact H1 | split; [exact H2 |]].
  exact (proj1 (scratch_cleared_before_trace (fun _ _ => Z.ones 64) _ _ H1 H2)).
Defined.

(** ** Rejection by the cache *)

Lemma update_loop_did_true (fuel position : nat) (arrays : list (option ptr))
    (lengths : list nat) (count : nat) (cand : ptr) (current : nat)
    (freed : list ptr) :
  fst (fst (update_loop fuel position arrays lengths count cand current true freed)) = true.
Proof.
  revert position arrays lengths cand current freed.
  induction fuel as [|fuel IH]; intros position arrays lengths cand current freed;
    cbn [update_loop]; [reflexivity|].
  destruct (Nat.ltb _ _); [|apply IH].
  destruct (nth position arrays None); [destruct (Nat.eqb _ _); apply IH | reflexivity].
Qed.

Lemma update_loop_false (fuel position : nat) (arrays : list (option ptr))
    (lengths : list nat) (count : nat) (cand : ptr) (current : nat)
    (freed : list ptr) :
  (fst (fst (update_loop fuel position arrays lengths count cand current false freed))
     = false <->
   forall i, (position <= i < position + fuel)%nat ->
     (current <= nth i lengths 0)%nat) /\
  (fst (fst (update_loop fuel position arrays lengths count cand current false freed))
     = false ->
   update_loop fuel position arrays lengths count cand current false freed
     = (false, mk_cache arrays lengths count, freed)).
Proof.
  revert position. induction fuel as [|fuel IH]; intros position; cbn [update_loop].
  - split; [split; [intros _ i Hi; lia | reflexivity] | reflexivity].
  - destruct (Nat.ltb_spec (nth position lengths 0%nat) current) as [Hlt | Hge].
    + assert (Ht : fst (fst (
        match nth position arrays None with
        | Some prev =>
            if Nat.eqb position (ARRAYS_TO_STORE - 1) then
              update_loop fuel (S position) (set_nth arrays position (Some cand))
                (set_nth lengths position current) count cand current true
                (prev :: freed)
            else
              update_loop fuel (S position) (set_nth arrays position (Some cand))
                (set_nth lengths position current) count prev
                (nth position lengths 0%nat) true freed
        | None =>
            (true, mk_cache (set_nth arrays position (Some cand))
                     (set_nth lengths position current) (S count), freed)
        end)) = true).
      { destruct (nth position arrays None);
          [destruct (Nat.eqb _ _); apply update_loop_did_true | reflexivity]. }
      rewrite Ht. split; [split; [discriminate | intros H; specialize (H position); lia] |].
      discriminate.
    + destruct (IH (S position)) as [IH1 IH2]. split; [|exact IH2].
      rewrite IH1. split.
      * intros H i Hi. destruct (Nat.eq_dec i position) as [->|Hne]; [exact Hge|].
        apply H. lia.
      * intros H i Hi. apply H. lia.
Qed.

(** ** C8 *)

(** C8 (counterexample): the cache holds one record, of length 5; an
    array of length 2, not larger than any stored length, is still
    accepted: [update_tested_cycles] returns [true] and the cache grows,
    since the empty ranks count as length 0. *)
Lemma update_nonfull_accepts_shorter :
  let cc := run_updates [(0%nat, 5%nat)] empty_cache in
  saved_array_count cc = 1%nat /\
  nth 0 (saved_cycle_lengths cc) 0%nat = 5%nat /\
  update_tested_cycles cc 1%nat 2%nat =
    (true, mk_cache ([Some 0; Some 1]%nat ++ repeat None 5)
                    ([5; 2]%nat ++ repeat 0%nat 5) 2, []).
Proof. vm_compute. split; [|split]; reflexivity. Qed.

(** C8 (amended): [update_tested_cycles] returns [false] exactly when the
    cache is non-empty and the candidate length is at most each of the
    [ARRAYS_TO_STORE] stored lengths, empty ranks counting as length 0 (so
    a cache with a free rank rejects only length 0); when it returns
    [false] the cache is unchanged and nothing is freed.  On such a miss
    the scanner keeps the same scratch array and allocates nothing (the
    array is cleared at the start of the next trace); when it returns
    [true] the scratch array is replaced by a freshly allocated one. *)
Theorem update_false_unchanged (cc : cache) (p : ptr) (len : nat) :
  (fst (fst (update_tested_cycles cc p len)) = false <->
     (0 < saved_array_count cc)%nat /\
     forall i, (i < ARRAYS_TO_STORE)%nat -> (len <= nth i (saved_cycle_lengths cc) 0)%nat) /\
  (fst (fst (update_tested_cycles cc p len)) = false ->
     update_tested_cycles cc p len = (false, cc, [])) /\
  (forall mc st seed,
     check_existing_arrays (heap st) (cache_of st) (seed_state seed) = None ->
     let st' := snd (test_seed_for_cycle mc st seed) in
     if fst (fst (update_tested_cycles (cache_of st) (cycle_bit_array st)
                    (fst (run_trace zero_array (seed_state seed)))))
     then cycle_bit_array st' = next_ptr st /\ next_ptr st' = S (next_ptr st)
     else cycle_bit_array st' = cycle_bit_array st /\ next_ptr st' = next_ptr st /\
          cache_of st' = cache_of st).
Proof.
  assert (Hgen : forall cc p len,
    (fst (fst (update_tested_cycles cc p len)) = false <->
       (0 < saved_array_count cc)%nat /\
       forall i, (i < ARRAYS_TO_STORE)%nat -> (len <= nth i (saved_cycle_lengths cc) 0)%nat) /\
    (fst (fst (update_tested_cycles cc p len)) = false ->
       update_tested_cycles cc p len = (false, cc, []))).
  { clear. intros [arrays lengths count] p len. unfold update_tested_cycles.
    cbn [tested_cycle_bit_arrays saved_cycle_lengths saved_array_count].
    destruct (Nat.eqb_spec count 0) as [-> | Hne].
    - cbn [fst]. split; [split; [discriminate | intros [H _]; lia] | discriminate].
    - destruct (update_loop_false ARRAYS_TO_STORE 0 arrays lengths count p len [])
        as [H1 H2].
      split; [rewrite H1; split; [intros H; split; [lia | intros i Hi; apply H; lia]
                                  | intros [_ H] i Hi; apply H; lia] | exact H2]. }
  split; [exact (proj1 (Hgen cc p len)) | split; [exact (proj2 (Hgen cc p len)) |]].
  intros mc st seed Hmiss st'. subst st'.
  rewrite (test_seed_for_cycle_miss mc st seed Hmiss).
  destruct (run_trace zero_array (seed_state seed)) as [n fp]. cbn [fst].
  destruct (Hgen (cache_of st) (cycle_bit_array st) n) as [_ H2].
  destruct (update_tested_cycles (cache_of st) (cycle_bit_array st) n)
    as [[[|] cc'] fr] eqn:E; cbn [fst snd cycle_bit_array next_ptr cache_of].
  - split; reflexivity.
  - specialize (H2 eq_refl). injection H2 as -> _.
    split; [reflexivity | split; reflexivity].
Qed.

Lemma update_false_unchanged_witness :
  fst (fst (update_tested_cycles
              (mk_cache (map Some [0; 1; 2; 3; 4; 5; 6]%nat) (repeat 9%nat 7) 7) 8%nat 3%nat))
    = false /\
  update_tested_cycles
    (mk_cache (map Some [0; 1; 2; 3; 4; 5; 6]%nat) (repeat 9%nat 7) 7) 8%nat 3%nat
  = (false, mk_cache (map Some [0; 1; 2; 3; 4; 5; 6]%nat) (repeat 9%nat 7) 7, []).
Proof.
  assert (H : fst (fst (update_tested_cycles
              (mk_cache (map Some [0; 1; 2; 3; 4; 5; 6]%nat) (repeat 9%nat 7) 7) 8%nat 3%nat))
    = false) by reflexivity.
  split; [exact H |].
  exact (proj1 (proj2 (update_false_unchanged
           (mk_cache (map Some [0; 1; 2; 3; 4; 5; 6]%nat) (repeat 9%nat 7) 7) 8%nat 3%nat)) H).
Defined.

(* ------------------------------------------------------------------ *)
(** ** Further properties of the code *)

Lemma byte_cases (P : Z -> Prop) (f : Z -> bool) :
  (forall x, f x = true -> P x) ->
  forallb (fun n => f (Z.of_nat n)) (seq 0 256) = true ->
  forall x, 0 <= x < 256 -> P x.
Proof.
  intros Hf Hall x Hx. apply Hf.
  rewrite forallb_forall in Hall.
  replace x with (Z.of_nat (Z.to_nat x)) by lia.
  apply Hall. apply in_seq. lia.
Qed.

Lemma unxorshift8_xorshift (x : Z) :
  0 <= x < 256 -> unxorshift8 (u8 (Z.lxor x (Z.shiftr x 2))) = x.
Proof.
  revert x.
  apply (byte_cases _ (fun x => Z.eqb (unxorshift8 (u8 (Z.lxor x (Z.shiftr x 2)))) x)).
  - intros y. apply Z.eqb_eq.
  - vm_compute. reflexivity.
Qed.

Lemma xorshift_unxorshift8 (x : Z) :
  0 <= x < 256 ->
  u8 (Z.lxor (unxorshift8 x) (Z.shiftr (unxorshift8 x) 2)) = x /\
  0 <= unxorshift8 x < 256.
Proof.
  revert x.
  apply (byte_cases _ (fun x =>
    Z.eqb (u8 (Z.lxor (unxorshift8 x) (Z.shiftr (unxorshift8 x) 2))) x &&
    Z.leb 0 (unxorshift8 x) && Z.ltb (unxorshift8 x) 256)).
  - intros y H. rewrite !andb_true_iff, Z.eqb_eq, Z.leb_le, Z.ltb_lt in H. lia.
  - vm_compute. reflexivity.
Qed.

Lemma times171_times3 (x : Z) :
  0 <= x < 256 -> u8 (171 * u8 (x + Z.shiftl x 1)) = x.
Proof.
  revert x.
  apply (byte_cases _ (fun x => Z.eqb (u8 (171 * u8 (x + Z.shiftl x 1))) x)).
  - intros y. apply Z.eqb_eq.
  - vm_compute. reflexivity.
Qed.

Lemma times3_times171 (x : Z) :
  0 <= x < 256 -> u8 (u8 (171 * x) + Z.shiftl (u8 (171 * x)) 1) = x.
Proof.
  revert x.
  apply (byte_cases _ (fun x => Z.eqb (u8 (u8 (171 * x) + Z.shiftl (u8 (171 * x)) 1)) x)).
  - intros y. apply Z.eqb_eq.
  - vm_compute. reflexivity.
Qed.

Lemma u8_range (x : Z) : 0 <= u8 x < 256.
Proof. unfold u8. rewrite land_255_mod. apply Z.mod_pos_bound. lia. Qed.

Lemma sfc8_retreat_wf (s : sfc8_t) : wf_state s -> wf_state (sfc8_retreat s).
Proof.
  intros (Ha & Hb & Hc & Hd). unfold wf_state, is_u8, sfc8_retreat; cbn [a b c d].
  pose proof (proj2 (xorshift_unxorshift8 (a s) Ha)).
  repeat split; try apply u8_range; lia.
Qed.

Lemma sfc8_retreat_advance (s : sfc8_t) :
  wf_state s -> sfc8_retreat (sfc8_advance s) = s.
Proof.
  destruct s as [a0 b0 c0 d0]; unfold wf_state, is_u8; cbn [a b c d].
  intros (Ha & Hb & Hc & Hd).
  unfold sfc8_retreat, sfc8_advance; cbn [a b c d].
  rewrite (times171_times3 c0 Hc), (unxorshift8_xorshift b0 Hb).
  assert (Ed : u8 (u8 (d0 + 1) - 1) = d0).
  { unfold u8. rewrite !land_255_mod. Z.div_mod_to_equations. lia. }
  rewrite Ed. f_equal.
  unfold u8. rewrite !land_255_mod. Z.div_mod_to_equations. lia.
Qed.

Lemma sfc8_advance_retreat (s : sfc8_t) :
  wf_state s -> sfc8_advance (sfc8_retreat s) = s.
Proof.
  destruct s as [a0 b0 c0 d0]; unfold wf_state, is_u8; cbn [a b c d].
  intros (Ha & Hb & Hc & Hd).
  unfold sfc8_retreat, sfc8_advance; cbn [a b c d].
  destruct (xorshift_unxorshift8 a0 Ha) as [Ea _].
  rewrite Ea, (times3_times171 b0 Hb).
  assert (Ed : u8 (u8 (d0 - 1) + 1) = d0).
  { unfold u8. rewrite !land_255_mod. Z.div_mod_to_equations. lia. }
  rewrite Ed. f_equal.
  unfold u8. rewrite !land_255_mod. Z.div_mod_to_equations. lia.
Qed.

Lemma sfc8_advance_inj (s1 s2 : sfc8_t) :
  wf_state s1 -> wf_state s2 -> sfc8_advance s1 = sfc8_advance s2 -> s1 = s2.
Proof.
  intros H1 H2 E.
  rewrite <- (sfc8_retreat_advance s1 H1), <- (sfc8_retreat_advance s2 H2), E.
  reflexivity.
Qed.

(** [sfc8_advance] is a bijection of the 8-bit states: [sfc8_retreat] maps
    each state to an 8-bit state, undoes the step, and is undone by it. *)
Theorem sfc8_advance_permutation (s : sfc8_t) :
  wf_state s ->
  wf_state (sfc8_retreat s) /\
  sfc8_retreat (sfc8_advance s) = s /\
  sfc8_advance (sfc8_retreat s) = s.
Proof.
  intros H. split; [apply sfc8_retreat_wf; exact H | split].
  - apply sfc8_retreat_advance. exact H.
  - apply sfc8_advance_retreat. exact H.
Qed.

Lemma sfc8_advance_permutation_witness :
  wf_state (mk_sfc8 200 17 255 0) /\
  sfc8_retreat (sfc8_advance (mk_sfc8 200 17 255 0)) = mk_sfc8 200 17 255 0.
Proof.
  assert (H : wf_state (mk_sfc8 200 17 255 0)) by (unfold wf_state, is_u8; cbn; lia).
  split; [exact H | exact (proj1 (proj2 (sfc8_advance_permutation _ H)))].
Defined.

Lemma seed_state_wf (seed : Z) : wf_state (seed_state seed).
Proof.
  unfold wf_state, is_u8, seed_state; cbn [a b c d].
  rewrite !land_255_mod. repeat split; try apply Z.mod_pos_bound; lia.
Qed.

Lemma seed_state_encode (seed : Z) :
  0 <= seed < 2 ^ 24 -> encode_state (seed_state seed) = seed + 2 ^ 24.
Proof.
  intros Hs. rewrite encode_state_arith by apply seed_state_wf.
  unfold seed_state; cbn [a b c d].
  rewrite !land_255_mod, !Z.shiftr_div_pow2 by lia.
  Z.div_mod_to_equations. lia.
Qed.

(** Every 32-bit position addresses a word inside the [BIT_ARRAY_LENGTH]
    words of the array and a bit below 64, and distinct positions address
    distinct (word, bit) pairs. *)
Theorem bit_position_in_bounds (p q : Z) :
  0 <= p < 2 ^ 32 -> 0 <= q < 2 ^ 32 ->
  0 <= WORD_INDEX p < BIT_ARRAY_LENGTH /\ 0 <= BIT_INDEX p < 64 /\
  (WORD_INDEX p = WORD_INDEX q -> BIT_INDEX p = BIT_INDEX q -> p = q).
Proof.
  intros Hp Hq.
  destruct (position_split p ltac:(lia)) as [Ep Bp].
  destruct (position_split q ltac:(lia)) as [Eq Bq].
  assert (HL : BIT_ARRAY_LENGTH = 2 ^ 26) by reflexivity.
  split; [|split; [exact Bp|]].
  - rewrite HL. lia.
  - intros Hw Hb. rewrite Ep, Eq, Hw, Hb. reflexivity.
Qed.

Lemma bit_position_in_bounds_witness :
  (0 <= 4294967295 < 2 ^ 32 /\ 0 <= 4294967231 < 2 ^ 32) /\
  WORD_INDEX 4294967295 < BIT_ARRAY_LENGTH.
Proof.
  assert (H1 : 0 <= 4294967295 < 2 ^ 32) by lia.
  assert (H2 : 0 <= 4294967231 < 2 ^ 32) by lia.
  split; [split; [exact H1 | exact H2] |].
  exact (proj2 (proj1 (bit_position_in_bounds _ _ H1 H2))).
Defined.

(** [test_and_set_bit] returns the bit [test_bit] reads at the position,
    leaves it set, changes no other position, and a second call at the same
    position reports a collision. *)
Theorem test_and_set_bit_sets (array : bitarray) (p : Z) :
  0 <= p ->
  fst (test_and_set_bit array p) = test_bit array p /\
  test_bit (snd (test_and_set_bit array p)) p = true /\
  (forall q, 0 <= q -> q <> p ->
     test_bit (snd (test_and_set_bit array p)) q = test_bit array q) /\
  fst (test_and_set_bit (snd (test_and_set_bit array p)) p) = true.
Proof.
  intros Hp.
  assert (Hset : test_bit (snd (test_and_set_bit array p)) p = true).
  { rewrite test_and_set_bit_snd, Z.eqb_refl by exact Hp. reflexivity. }
  split; [apply test_and_set_bit_fst | split; [exact Hset | split]].
  - intros q Hq Hne. rewrite test_and_set_bit_snd by assumption.
    destruct (Z.eqb_spec p q); [congruence | reflexivity].
  - rewrite test_and_set_bit_fst. exact Hset.
Qed.

Lemma test_and_set_bit_sets_witness :
  0 <= 70 /\ test_bit (snd (test_and_set_bit zero_array 70)) 70 = true.
Proof.
  assert (H : 0 <= 70) by lia.
  split; [exact H | exact (proj1 (proj2 (test_and_set_bit_sets zero_array 70 H)))].
Defined.

(** A seed below [2^24] starts from an 8-bit state with [d = 1] whose key
    is [seed + 2^24]; distinct such seeds give distinct initial states. *)
Theorem seed_state_distinct_keys (seed seed' : Z) :
  0 <= seed < 2 ^ 24 -> 0 <= seed' < 2 ^ 24 ->
  wf_state (seed_state seed) /\ d (seed_state seed) = 1 /\
  encode_state (seed_state seed) = seed + 2 ^ 24 /\
  (seed_state seed = seed_state seed' -> seed = seed').
Proof.
  intros Hs Hs'.
  split; [apply seed_state_wf | split; [reflexivity | split]].
  - apply seed_state_encode. exact Hs.
  - intros E. pose proof (seed_state_encode seed Hs) as E1.
    pose proof (seed_state_encode seed' Hs') as E2.
    rewrite E in E1. lia.
Qed.

Lemma seed_state_distinct_keys_witness :
  (0 <= 16777215 < 2 ^ 24 /\ 0 <= 3 < 2 ^ 24) /\
  encode_state (seed_state 16777215) = 16777215 + 2 ^ 24.
Proof.
  assert (H1 : 0 <= 16777215 < 2 ^ 24) by lia.
  assert (H2 : 0 <= 3 < 2 ^ 24) by lia.
  split; [split; [exact H1 | exact H2] |].
  exact (proj1 (proj2 (proj2 (seed_state_distinct_keys _ _ H1 H2)))).
Defined.

(** ** The cycle traced from a state *)

Lemma orbit_in_iff (s x : sfc8_t) (n : nat) :
  In x (orbit s n) <-> exists i, (i < n)%nat /\ x = Nat.iter i sfc8_advance s.
Proof.
  revert s; induction n as [|n IH]; intros s; cbn [orbit In].
  - split; [intros [] | intros (i & Hi & _); lia].
  - rewrite IH. split.
    + intros [<- | (i & Hi & ->)].
      * exists 0%nat. split; [lia | reflexivity].
      * exists (S i). split; [lia | symmetry; apply Nat.iter_succ_r].
    + intros ([|i] & Hi & ->); [left; reflexivity | right].
      exists i. split; [lia | apply Nat.iter_succ_r].
Qed.

Lemma orbit_nodup_iter (s : sfc8_t) (n i k : nat) :
  NoDup (orbit s n) -> (i < k < n)%nat ->
  Nat.iter i sfc8_advance s <> Nat.iter k sfc8_advance s.
Proof.
  revert s i k; induction n as [|n IH]; intros s i k Hnd Hik; [lia|].
  cbn [orbit] in Hnd. inversion Hnd as [|? ? Hnotin Hnd']; subst.
  destruct k as [|k]; [lia|]. rewrite Nat.iter_succ_r.
  destruct i as [|i].
  - intros E. apply Hnotin. apply orbit_in_iff. exists k. split; [lia | exact E].
  - rewrite Nat.iter_succ_r. apply IH; [exact Hnd' | lia].
Qed.

Lemma iter_cancel (s : sfc8_t) (m j : nat) :
  wf_state s ->
  Nat.iter (m + j) sfc8_advance s = Nat.iter j sfc8_advance s ->
  Nat.iter m sfc8_advance s = s.
Proof.
  intros Hs. induction j as [|j IH]; intros E.
  - rewrite Nat.add_0_r in E. exact E.
  - apply IH. rewrite Nat.add_succ_r in E. cbn [Nat.iter nat_rect] in E.
    apply sfc8_advance_inj; [apply iter_advance_wf; exact Hs
                            | apply iter_advance_wf; exact Hs | exact E].
Qed.

Lemma first_repeat_is_start (s : sfc8_t) (n : nat) :
  wf_state s -> NoDup (orbit s n) -> In (Nat.iter n sfc8_advance s) (orbit s n) ->
  Nat.iter n sfc8_advance s = s.
Proof.
  intros Hs Hnd Hin. apply orbit_in_iff in Hin as (i & Hi & E).
  destruct i as [|i]; [exact E|].
  destruct n as [|n]; [lia|]. exfalso.
  cbn [Nat.iter nat_rect] in E.
  apply sfc8_advance_inj in E; [|apply iter_advance_wf; exact Hs
                                 |apply iter_advance_wf; exact Hs].
  apply (orbit_nodup_iter s (S n) i n Hnd); [lia | symmetry; exact E].
Qed.

Lemma trace_loop_model (fuel k : nat) (array : bitarray) (s0 : sfc8_t) :
  wf_state s0 ->
  bits_model array (map encode_state (orbit s0 k)) ->
  bits_model (snd (trace_loop fuel k array (Nat.iter k sfc8_advance s0)))
    (map encode_state
       (orbit s0 (fst (trace_loop fuel k array (Nat.iter k sfc8_advance s0))))).
Proof.
  revert k array. induction fuel as [|fuel IH]; intros k array Hs0 Hm.
  - exact Hm.
  - cbn [trace_loop].
    set (st := Nat.iter k sfc8_advance s0).
    assert (Hst : wf_state st) by (apply iter_advance_wf; exact Hs0).
    pose proof (encode_state_nonneg st) as Hr.
    pose proof (test_and_set_bit_fst array (encode_state st)) as Hf.
    pose proof (test_and_set_bit_snd array (encode_state st)) as Hsn.
    destruct (test_and_set_bit array (encode_state st)) as [collision array'].
    cbn [fst snd] in Hf, Hsn. destruct collision.
    + cbn [fst snd]. intros q Hq. rewrite Hsn by lia.
      destruct (Z.eqb_spec (encode_state st) q) as [<- | Hne].
      * cbn [orb]. split; [intros _ | reflexivity].
        apply Hm; [lia | symmetry; exact Hf].
      * cbn [orb]. apply Hm. exact Hq.
    + change (sfc8_advance st) with (Nat.iter (S k) sfc8_advance s0).
      apply IH; [exact Hs0 |].
      intros q Hq. rewrite Hsn by lia. rewrite orbit_S_r, map_app, in_app_iff.
      rewrite orb_true_iff, (Hm q Hq), Z.eqb_eq. cbn. intuition.
Qed.

Lemma trace_cycle_gen (P : nat) (s : sfc8_t) :
  Z.of_nat P = 2 ^ 32 -> wf_state s ->
  let n := fst (trace_loop P 0 zero_array s) in
  (1 <= n <= P)%nat /\
  Nat.iter n sfc8_advance s = s /\
  NoDup (orbit s n) /\
  bits_model (snd (trace_loop P 0 zero_array s)) (map encode_state (orbit s n)).
Proof.
  intros HP Hs. cbv zeta.
  assert (Hpos : (1 <= fst (trace_loop P 0 zero_array s))%nat).
  { destruct P as [|P']; [cbn in HP; lia|].
    apply trace_loop_first_fresh. apply test_bit_zero_array. }
  pose proof (trace_loop_spec P 0 zero_array s Hs) as Hspec.
  pose proof (trace_loop_model P 0 zero_array s Hs) as Hmod.
  change (Nat.iter 0 sfc8_advance s) with s in Hspec, Hmod. cbv zeta in Hspec.
  assert (Hz : bits_model zero_array (map encode_state (orbit s 0))).
  { intros k _. rewrite test_bit_zero_array. cbn. split; [discriminate | intros []]. }
  specialize (Hmod Hz).
  set (n := fst (trace_loop P 0 zero_array s)) in *.
  destruct Hspec as (H1 & H2 & H3); [constructor | exact Hz |].
  assert (Hin : In (encode_state (Nat.iter n sfc8_advance s))
                   (map encode_state (orbit s n))).
  { destruct H3 as [H3 | H3]; [|exact H3].
    pose proof POSSIBLE_STATES_Z as HPS.
    apply keys_pigeonhole.
    - exact H2.
    - rewrite length_map, orbit_length. lia.
    - intros x Hx. apply in_map_iff in Hx as (y & <- & Hy).
      apply encode_state_range. exact (orbit_wf s y n Hs Hy).
    - apply encode_state_range, iter_advance_wf. exact Hs. }
  assert (Hnd : NoDup (orbit s n)) by exact (NoDup_map_inv _ _ H2).
  assert (Hin' : In (Nat.iter n sfc8_advance s) (orbit s n)).
  { apply in_map_iff in Hin as (y & Hy & Hyin).
    rewrite <- (encode_state_inj y (Nat.iter n sfc8_advance s)); [exact Hyin | | |].
    + exact (orbit_wf s y n Hs Hyin).
    + apply iter_advance_wf. exact Hs.
    + exact Hy. }
  split; [lia | split; [| split; [exact Hnd | exact Hmod]]].
  apply first_repeat_is_start; assumption.
Qed.

Lemma run_trace_cycle (s : sfc8_t) :
  wf_state s ->
  let n := fst (run_trace zero_array s) in
  (1 <= n <= POSSIBLE_STATES)%nat /\
  Nat.iter n sfc8_advance s = s /\
  NoDup (orbit s n) /\
  bits_model (snd (run_trace zero_array s)) (map encode_state (orbit s n)).
Proof.
  intros Hs. exact (trace_cycle_gen POSSIBLE_STATES s POSSIBLE_STATES_Z Hs).
Qed.

Lemma run_trace_on_cycle (s : sfc8_t) (j : nat) :
  wf_state s ->
  fst (run_trace zero_array (Nat.iter j sfc8_advance s)) = fst (run_trace zero_array s).
Proof.
  intros Hs.
  set (x := Nat.iter j sfc8_advance s).
  assert (Hx : wf_state x) by (apply iter_advance_wf; exact Hs).
  destruct (run_trace_cycle s Hs) as (Hn & Hns & Hnd & _).
  destruct (run_trace_cycle x Hx) as (Hm & Hmx & Hmd & _).
  set (n := fst (run_trace zero_array s)) in *.
  set (m := fst (run_trace zero_array x)) in *.
  assert (Hnx : Nat.iter n sfc8_advance x = x).
  { unfold x. rewrite <- Nat.iter_add, Nat.add_comm, Nat.iter_add, Hns. reflexivity. }
  destruct (Nat.lt_trichotomy m n) as [Hlt | [Heq | Hgt]]; [exfalso | exact Heq | exfalso].
  - assert (E : Nat.iter m sfc8_advance s = s).
    { apply (iter_cancel s m j Hs). rewrite Nat.iter_add. exact Hmx. }
    apply (orbit_nodup_iter s n 0 m Hnd); [lia | symmetry; exact E].
  - apply (orbit_nodup_iter x m 0 n Hmd); [lia | symmetry; exact Hnx].
Qed.

(** The state reached after the traced length [n] is the initial state
    again, and no earlier step returns to it: [n] is the exact period of the
    initial state (the trace never enters a cycle from outside). *)
Theorem trace_returns_to_start (s : sfc8_t) :
  wf_state s ->
  let n := fst (run_trace zero_array s) in
  (1 <= n)%nat /\ Nat.iter n sfc8_advance s = s /\
  (forall i, (0 < i < n)%nat -> Nat.iter i sfc8_advance s <> s).
Proof.
  intros Hs n. destruct (run_trace_cycle s Hs) as (H1 & H2 & H3 & _).
  split; [lia | split; [exact H2 |]].
  intros i Hi E. apply (orbit_nodup_iter s n 0 i H3); [lia | symmetry; exact E].
Qed.

Lemma trace_returns_to_start_witness :
  wf_state (mk_sfc8 0 0 0 1) /\ (1 <= fst (run_trace zero_array (mk_sfc8 0 0 0 1)))%nat.
Proof.
  assert (H : wf_state (mk_sfc8 0 0 0 1)) by (unfold wf_state, is_u8; cbn; lia).
  split; [exact H | exact (proj1 (trace_returns_to_start _ H))].
Defined.

Lemma run_trace_keys (s : sfc8_t) (k : Z) :
  wf_state s -> 0 <= k ->
  test_bit (snd (run_trace zero_array s)) k = true <->
  exists i, (i < fst (run_trace zero_array s))%nat /\
            k = encode_state (Nat.iter i sfc8_advance s).
Proof.
  intros Hs Hk. destruct (run_trace_cycle s Hs) as (_ & _ & _ & Hm).
  rewrite (Hm k Hk), in_map_iff. split.
  - intros (y & <- & Hy). apply orbit_in_iff in Hy as (i & Hi & ->).
    exists i. split; [exact Hi | reflexivity].
  - intros (i & Hi & ->). exists (Nat.iter i sfc8_advance s).
    split; [reflexivity | apply orbit_in_iff; exists i; split; [exact Hi | reflexivity]].
Qed.

(** After a trace from the all-zero array, the bits set in the array are
    exactly the keys of the [n] states visited, [n] the traced length. *)
Theorem trace_fingerprint_exact (s : sfc8_t) (k : Z) :
  wf_state s -> 0 <= k ->
  test_bit (snd (run_trace zero_array s)) k = true <->
  exists i, (i < fst (run_trace zero_array s))%nat /\
            k = encode_state (Nat.iter i sfc8_advance s).
Proof. apply run_trace_keys. Qed.

Lemma trace_fingerprint_exact_witness :
  (wf_state (mk_sfc8 0 0 0 1) /\ 0 <= encode_state (mk_sfc8 0 0 0 1)) /\
  test_bit (snd (run_trace zero_array (mk_sfc8 0 0 0 1))) (encode_state (mk_sfc8 0 0 0 1))
    = true.
Proof.
  assert (H : wf_state (mk_sfc8 0 0 0 1)) by (unfold wf_state, is_u8; cbn; lia).
  assert (Hk : 0 <= encode_state (mk_sfc8 0 0 0 1)) by (vm_compute; discriminate).
  split; [split; [exact H | exact Hk] |].
  apply (proj2 (trace_fingerprint_exact _ _ H Hk)).
  exists 0%nat. split; [exact (run_trace_zero_pos _) | reflexivity].
Defined.

(** Tracing from any state reached from [s] gives the same length as
    tracing from [s]. *)
Theorem trace_length_cycle_invariant (s : sfc8_t) (j : nat) :
  wf_state s ->
  fst (run_trace zero_array (Nat.iter j sfc8_advance s)) = fst (run_trace zero_array s).
Proof. apply run_trace_on_cycle. Qed.

Lemma trace_length_cycle_invariant_witness :
  wf_state (mk_sfc8 0 0 0 1) /\
  fst (run_trace zero_array (Nat.iter 3 sfc8_advance (mk_sfc8 0 0 0 1))) =
  fst (run_trace zero_array (mk_sfc8 0 0 0 1)).
Proof.
  assert (H : wf_state (mk_sfc8 0 0 0 1)) by (unfold wf_state, is_u8; cbn; lia).
  split; [exact H | exact (trace_length_cycle_invariant _ 3 H)].
Defined.

(** ** What [update_tested_cycles] stores and frees *)

Lemma set_nth_out {A : Type} (l : list A) (i : nat) (x : A) :
  (length l <= i)%nat -> set_nth l i x = l.
Proof.
  revert i; induction l as [|h t IH]; intros [|i] Hi; cbn in *; try lia; try reflexivity.
  rewrite IH by lia. reflexivity.
Qed.

Lemma slots_set (P : ptr -> nat -> Prop) (arrays : list (option ptr)) (lengths : list nat)
    (pos : nat) (cand : ptr) (current : nat) :
  length arrays = length lengths ->
  (forall i q, nth i arrays None = Some q -> P q (nth i lengths 0%nat)) ->
  P cand current ->
  forall i q, nth i (set_nth arrays pos (Some cand)) None = Some q ->
    P q (nth i (set_nth lengths pos current) 0%nat).
Proof.
  intros Hlen Hs Hc i q Hi.
  destruct (Nat.eq_dec i pos) as [-> | Hne].
  - destruct (Nat.lt_ge_cases pos (length arrays)) as [Hlt | Hge].
    + rewrite nth_set_nth_eq in Hi by exact Hlt. injection Hi as <-.
      rewrite nth_set_nth_eq by lia. exact Hc.
    + rewrite set_nth_out in Hi by exact Hge. rewrite nth_overflow in Hi by exact Hge.
      discriminate.
  - rewrite nth_set_nth_neq in Hi by lia. rewrite nth_set_nth_neq by lia.
    apply Hs. exact Hi.
Qed.

Lemma update_loop_pairs (P : ptr -> nat -> Prop) (fuel position : nat)
    (arrays : list (option ptr)) (lengths : list nat) (count : nat) (cand : ptr)
    (current : nat) (did : bool) (freed : list ptr) :
  length arrays = length lengths ->
  (forall i q, nth i arrays None = Some q -> P q (nth i lengths 0%nat)) ->
  P cand current ->
  let cc' := snd (fst (update_loop fuel position arrays lengths count cand
                         current did freed)) in
  forall i q, nth i (tested_cycle_bit_arrays cc') None = Some q ->
    P q (nth i (saved_cycle_lengths cc') 0%nat).
Proof.
  revert position arrays lengths cand current did freed.
  induction fuel as [|fuel IH];
    intros position arrays lengths cand current did freed Hlen Hs Hc cc'; subst cc'.
  - exact Hs.
  - cbn [update_loop].
    destruct (Nat.ltb _ _).
    + assert (Hs' := slots_set P arrays lengths position cand current Hlen Hs Hc).
      assert (Hlen' : length (set_nth arrays position (Some cand)) =
                      length (set_nth lengths position current))
        by (rewrite !length_set_nth; exact Hlen).
      destruct (nth position arrays None) as [prev|] eqn:Ep.
      * destruct (Nat.eqb _ _).
        -- apply IH; assumption.
        -- apply IH; [exact Hlen' | exact Hs' | apply Hs; exact Ep].
      * exact Hs'.
    + apply IH; assumption.
Qed.

Lemma update_tested_cycles_pairs (P : ptr -> nat -> Prop) (cc : cache) (p : ptr) (len : nat) :
  length (tested_cycle_bit_arrays cc) = length (saved_cycle_lengths cc) ->
  (forall i q, nth i (tested_cycle_bit_arrays cc) None = Some q ->
     P q (nth i (saved_cycle_lengths cc) 0%nat)) ->
  P p len ->
  let cc' := snd (fst (update_tested_cycles cc p len)) in
  forall i q, nth i (tested_cycle_bit_arrays cc') None = Some q ->
    P q (nth i (saved_cycle_lengths cc') 0%nat).
Proof.
  intros Hlen Hs Hc cc'. subst cc'. unfold update_tested_cycles.
  destruct (Nat.eqb _ _).
  - cbn [fst snd tested_cycle_bit_arrays saved_cycle_lengths].
    apply slots_set; assumption.
  - apply update_loop_pairs; assumption.
Qed.

Lemma update_loop_retains (p : ptr) (len : nat) (fuel position : nat)
    (arrays : list (option ptr)) (lengths : list nat) (count : nat) (cand : ptr)
    (current : nat) (did : bool) (freed : list ptr) :
  (position + fuel <= length arrays)%nat ->
  length arrays = length lengths ->
  (did = false -> cand = p /\ current = len) ->
  (did = true -> exists i, (i < position)%nat /\
     nth i arrays None = Some p /\ nth i lengths 0%nat = len) ->
  let r := update_loop fuel position arrays lengths count cand current did freed in
  fst (fst r) = true ->
  exists i, nth i (tested_cycle_bit_arrays (snd (fst r))) None = Some p /\
            nth i (saved_cycle_lengths (snd (fst r))) 0%nat = len.
Proof.
  revert position arrays lengths cand current did freed.
  induction fuel as [|fuel IH];
    intros position arrays lengths cand current did freed Hpf Hlen Hf Ht r Hr; subst r.
  - cbn in Hr |- *. subst did. destruct (Ht eq_refl) as (i & _ & H1 & H2).
    exists i. split; assumption.
  - cbn [update_loop] in Hr |- *.
    assert (Hnew : exists i, (i < S position)%nat /\
               nth i (set_nth arrays position (Some cand)) None = Some p /\
               nth i (set_nth lengths position current) 0%nat = len).
    { destruct did.
      - destruct (Ht eq_refl) as (i & Hi & H1 & H2). exists i.
        split; [lia|]. nth_set. split; assumption.
      - destruct (Hf eq_refl) as [-> ->]. exists position.
        split; [lia|]. nth_set. split; reflexivity. }
    assert (Hlen' : length (set_nth arrays position (Some cand)) =
                    length (set_nth lengths position current))
      by (rewrite !length_set_nth; exact Hlen).
    destruct (Nat.ltb _ _).
    + destruct (nth position arrays None) as [prev|].
      * destruct (Nat.eqb _ _).
        -- apply IH; [rewrite length_set_nth; lia | exact Hlen' | discriminate
                     | intros _; exact Hnew | exact Hr].
        -- apply IH; [rewrite length_set_nth; lia | exact Hlen' | discriminate
                     | intros _; exact Hnew | exact Hr].
      * cbn [fst snd tested_cycle_bit_arrays saved_cycle_lengths].
        destruct Hnew as (i & _ & H1 & H2). exists i. split; assumption.
    + apply IH; [lia | exact Hlen | exact Hf | | exact Hr].
      intros Hd. destruct (Ht Hd) as (i & Hi & H1 & H2). exists i.
      split; [lia | split; assumption].
Qed.

Lemma update_loop_freed (fuel position : nat) (arrays orig : list (option ptr))
    (lengths : list nat) (count : nat) (cand : ptr) (current : nat) (did : bool)
    (freed : list ptr) :
  (position + fuel = ARRAYS_TO_STORE)%nat ->
  (forall i, (position <= i)%nat -> nth i arrays None = nth i orig None) ->
  let fr := snd (update_loop fuel position arrays lengths count cand current did freed) in
  fr = freed \/
  exists q, fr = q :: freed /\ nth (ARRAYS_TO_STORE - 1) orig None = Some q.
Proof.
  revert position arrays lengths cand current did.
  induction fuel as [|fuel IH]; intros position arrays lengths cand current did Hpf Horig fr;
    subst fr.
  - left. reflexivity.
  - cbn [update_loop].
    assert (Horig' : forall i, (S position <= i)%nat ->
              nth i (set_nth arrays position (Some cand)) None = nth i orig None).
    { intros i Hi. rewrite nth_set_nth_neq by lia. apply Horig. lia. }
    destruct (Nat.ltb _ _).
    + destruct (nth position arrays None) as [prev|] eqn:Ep.
      * destruct (Nat.eqb_spec position (ARRAYS_TO_STORE - 1)) as [E | E].
        -- unfold ARRAYS_TO_STORE in *. assert (fuel = 0%nat) as -> by lia.
           cbn [update_loop snd]. right. exists prev. split; [reflexivity|].
           rewrite <- Horig by lia. rewrite <- E. exact Ep.
        -- apply IH; [lia | exact Horig'].
      * left. reflexivity.
    + apply IH; [lia|]. intros i Hi. apply Horig. lia.
Qed.

(** [update_tested_cycles] frees nothing, or frees one array: the one held
    at the bottom rank [ARRAYS_TO_STORE - 1] before the call, and only when
    the cache was non-empty. *)
Theorem update_frees_only_bottom (cc : cache) (p : ptr) (len : nat) :
  snd (update_tested_cycles cc p len) = [] \/
  exists q, snd (update_tested_cycles cc p len) = [q] /\
            saved_array_count cc <> 0%nat /\
            nth (ARRAYS_TO_STORE - 1) (tested_cycle_bit_arrays cc) None = Some q.
Proof.
  unfold update_tested_cycles.
  destruct (Nat.eqb_spec (saved_array_count cc) 0) as [E | E].
  - left. reflexivity.
  - destruct (update_loop_freed ARRAYS_TO_STORE 0 (tested_cycle_bit_arrays cc)
                (tested_cycle_bit_arrays cc) (saved_cycle_lengths cc) (saved_array_count cc)
                p len false [] eq_refl (fun i _ => eq_refl)) as [H | (q & H1 & H2)].
    + left. exact H.
    + right. exists q. split; [exact H1 | split; [exact E | exact H2]].
Qed.

(** Every array held by the cache after [update_tested_cycles] is the
    candidate with its length, or an array held before the call together
    with the length it had then; and when the call returns [true], the
    candidate is held with its length. *)
Theorem update_keeps_pairs (cc : cache) (p : ptr) (len : nat) :
  length (tested_cycle_bit_arrays cc) = ARRAYS_TO_STORE ->
  length (saved_cycle_lengths cc) = ARRAYS_TO_STORE ->
  let r := update_tested_cycles cc p len in
  (forall i q, nth i (tested_cycle_bit_arrays (snd (fst r))) None = Some q ->
     (q = p /\ nth i (saved_cycle_lengths (snd (fst r))) 0%nat = len) \/
     exists j, nth j (tested_cycle_bit_arrays cc) None = Some q /\
               nth j (saved_cycle_lengths cc) 0%nat =
               nth i (saved_cycle_lengths (snd (fst r))) 0%nat) /\
  (fst (fst r) = true ->
     exists i, nth i (tested_cycle_bit_arrays (snd (fst r))) None = Some p /\
               nth i (saved_cycle_lengths (snd (fst r))) 0%nat = len).
Proof.
  intros Ha Hl r. subst r. split.
  - apply (update_tested_cycles_pairs
             (fun q l => (q = p /\ l = len) \/
                exists j, nth j (tested_cycle_bit_arrays cc) None = Some q /\
                          nth j (saved_cycle_lengths cc) 0%nat = l)).
    + congruence.
    + intros i q Hi. right. exists i. split; [exact Hi | reflexivity].
    + left. split; reflexivity.
  - unfold update_tested_cycles.
    destruct (Nat.eqb _ _).
    + intros _. cbn [fst snd tested_cycle_bit_arrays saved_cycle_lengths].
      exists 0%nat. unfold ARRAYS_TO_STORE in *. nth_set. split; reflexivity.
    + apply update_loop_retains; [unfold ARRAYS_TO_STORE in *; lia | congruence
                                 | intros _; split; reflexivity | discriminate].
Qed.

Lemma update_keeps_pairs_witness :
  (length (tested_cycle_bit_arrays empty_cache) = ARRAYS_TO_STORE /\
   length (saved_cycle_lengths empty_cache) = ARRAYS_TO_STORE) /\
  exists i, nth i (tested_cycle_bit_arrays
                     (snd (fst (update_tested_cycles empty_cache 4%nat 9%nat)))) None
              = Some 4%nat /\
            nth i (saved_cycle_lengths
                     (snd (fst (update_tested_cycles empty_cache 4%nat 9%nat)))) 0%nat
              = 9%nat.
Proof.
  assert (H1 : length (tested_cycle_bit_arrays empty_cache) = ARRAYS_TO_STORE)
    by reflexivity.
  assert (H2 : length (saved_cycle_lengths empty_cache) = ARRAYS_TO_STORE)
    by reflexivity.
  split; [split; [exact H1 | exact H2] |].
  exact (proj2 (update_keeps_pairs empty_cache 4%nat 9%nat H1 H2) eq_refl).
Defined.

(** ** Invariants of the scan *)

Lemma update_false_cache (cc : cache) (p : ptr) (len : nat) :
  fst (fst (update_tested_cycles cc p len)) = false ->
  snd (fst (update_tested_cycles cc p len)) = cc.
Proof.
  destruct cc as [arrays lengths count]. unfold update_tested_cycles.
  cbn [tested_cycle_bit_arrays saved_cycle_lengths saved_array_count].
  destruct (Nat.eqb _ _); [discriminate|].
  intros H. rewrite (proj2 (update_loop_false ARRAYS_TO_STORE 0 arrays lengths count p len [])
                       H).
  reflexivity.
Qed.

Lemma test_seed_for_cycle_cases (mc : ptr -> bitarray) (st : scanner) (seed : Z) :
  test_seed_for_cycle mc st seed =
    (fst (fst (test_seed_for_cycle mc st seed)), true, st) \/
  check_existing_arrays (heap st) (cache_of st) (seed_state seed) = None.
Proof.
  destruct (check_existing_arrays (heap st) (cache_of st) (seed_state seed)) as [i|] eqn:E;
    [left | right; reflexivity].
  cbv beta zeta delta [test_seed_for_cycle].
  destruct (Nat.ltb_spec 0 (saved_array_count (cache_of st))) as [Hc | Hc].
  - rewrite E. reflexivity.
  - exfalso. unfold check_existing_arrays in E.
    replace (saved_array_count (cache_of st)) with 0%nat in E by lia. discriminate.
Qed.

Lemma test_seed_for_cycle_step (mc : ptr -> bitarray) (st : scanner) (seed : Z) :
  cache_inv (cache_of st) -> alias_inv st ->
  let st' := snd (test_seed_for_cycle mc st seed) in
  alias_inv st' /\
  (forall i q, nth i (tested_cycle_bit_arrays (cache_of st)) None = Some q ->
     heap st' q = heap st q) /\
  (fingerprint_inv st -> fingerprint_inv st').
Proof.
  intros Hci (Hsc & Hq) st'. subst st'.
  destruct (test_seed_for_cycle_cases mc st seed) as [E | Hmiss].
  - rewrite E. cbn [snd]. split; [exact (conj Hsc Hq) | split].
    + intros i q _. reflexivity.
    + intros H. exact H.
  - rewrite (test_seed_for_cycle_miss mc st seed Hmiss).
    assert (Hlen : length (tested_cycle_bit_arrays (cache_of st)) =
                   length (saved_cycle_lengths (cache_of st)))
      by (destruct Hci as (H1 & H2 & _); congruence).
    destruct (run_trace zero_array (seed_state seed)) as [n fp] eqn:Er.
    set (scratch := cycle_bit_array st) in *.
    set (cc := cache_of st) in *.
    set (heap2 := heap_store (heap_store (heap st) scratch zero_array) scratch fp).
    assert (Hh2 : forall q, q <> scratch -> heap2 q = heap st q).
    { intros q Hne. unfold heap2, heap_store.
      destruct (Nat.eqb_spec q scratch); [congruence | reflexivity]. }
    assert (Hh2s : heap2 scratch = fp).
    { unfold heap2, heap_store. rewrite Nat.eqb_refl. reflexivity. }
    assert (Hfalse := update_false_cache cc scratch n).
    pose proof (update_tested_cycles_pairs (fun q _ => (q < next_ptr st)%nat)
                  cc scratch n Hlen (fun i q Hi => proj1 (Hq i q Hi)) Hsc) as Hlt'.
    assert (Hfp : fingerprint_inv st -> forall h : ptr -> bitarray,
              h scratch = fp ->
              (forall q, q <> scratch -> (q < next_ptr st)%nat -> h q = heap st q) ->
              forall i q, nth i (tested_cycle_bit_arrays
                                   (snd (fst (update_tested_cycles cc scratch n)))) None
                            = Some q ->
                exists s, wf_state s /\ h q = snd (run_trace zero_array s) /\
                  nth i (saved_cycle_lengths
                           (snd (fst (update_tested_cycles cc scratch n)))) 0%nat
                    = fst (run_trace zero_array s)).
    { intros Hinv h Hhs Hho.
      apply (update_tested_cycles_pairs
               (fun q l => exists s, wf_state s /\ h q = snd (run_trace zero_array s) /\
                                     l = fst (run_trace zero_array s))).
      - exact Hlen.
      - intros i q Hi. destruct (Hinv i q Hi) as (s & Hs & Hhq & Hl).
        exists s. split; [exact Hs | split; [|exact Hl]].
        rewrite Hho; [exact Hhq | exact (proj2 (Hq i q Hi)) | exact (proj1 (Hq i q Hi))].
      - exists (seed_state seed). rewrite Er.
        split; [apply seed_state_wf | split; [exact Hhs | reflexivity]]. }
    cbv zeta in Hlt'.
    destruct (update_tested_cycles cc scratch n) as [[did cc'] fr] eqn:Eu.
    cbn [fst snd] in Hfalse, Hlt', Hfp.
    destruct did.
    + unfold alias_inv, fingerprint_inv.
      cbn [snd heap cycle_bit_array next_ptr cache_of].
      set (h3 := heap_store heap2 (next_ptr st) (mc (next_ptr st))).
      assert (Hh3 : forall q, (q < next_ptr st)%nat -> h3 q = heap2 q).
      { intros q Hlt. unfold h3, heap_store.
        destruct (Nat.eqb_spec q (next_ptr st)); [lia | reflexivity]. }
      split; [split; [lia |] | split].
      * intros i q Hi. pose proof (Hlt' i q Hi). split; lia.
      * intros i q Hi. destruct (Hq i q Hi) as [H1 H2].
        rewrite Hh3 by exact H1. apply Hh2. exact H2.
      * intros Hinv i q Hi. apply (Hfp Hinv h3); [| | exact Hi].
        -- rewrite Hh3 by exact Hsc. exact Hh2s.
        -- intros q' Hne Hlt. rewrite Hh3 by exact Hlt. apply Hh2. exact Hne.
    + specialize (Hfalse eq_refl). subst cc'.
      unfold alias_inv, fingerprint_inv.
      cbn [snd heap cycle_bit_array next_ptr cache_of].
      split; [split; [exact Hsc | exact Hq] | split].
      * intros i q Hi. apply Hh2. exact (proj2 (Hq i q Hi)).
      * intros Hinv i q Hi. apply (Hfp Hinv heap2); [exact Hh2s | | exact Hi].
        intros q' Hne _. apply Hh2. exact Hne.
Qed.

Lemma main_scan_alias_fp (mc : ptr -> bitarray) (n : nat) :
  alias_inv (main_scan mc n) /\ fingerprint_inv (main_scan mc n).
Proof.
  induction n as [|n [IHa IHf]].
  - unfold alias_inv, fingerprint_inv, main_scan, main_init, empty_cache.
    cbn [cycle_bit_array next_ptr cache_of tested_cycle_bit_arrays].
    split; [split; [lia|] |]; intros i q Hi; rewrite nth_repeat in Hi; discriminate.
  - cbn [main_scan].
    destruct (test_seed_for_cycle_step mc (main_scan mc n) (Z.of_nat n)
                (main_scan_inv mc n) IHa) as (H1 & _ & H3).
    split; [exact H1 | exact (H3 IHf)].
Qed.

(** Along [main]'s scan the scratch array and the retained arrays come
    from earlier allocations and no retained array is the scratch array; so
    processing the next seed leaves every retained array's contents
    unchanged (the [memset] and the trace only touch the scratch array). *)
Theorem scan_fingerprints_preserved (mc : ptr -> bitarray) (n : nat) :
  alias_inv (main_scan mc n) /\
  (forall i q, nth i (tested_cycle_bit_arrays (cache_of (main_scan mc n))) None = Some q ->
     q <> cycle_bit_array (main_scan mc n) /\
     heap (main_scan mc (S n)) q = heap (main_scan mc n) q).
Proof.
  destruct (main_scan_alias_fp mc n) as [Ha _].
  split; [exact Ha|].
  intros i q Hi. split; [exact (proj2 (proj2 Ha i q Hi)) |].
  cbn [main_scan].
  exact (proj1 (proj2 (test_seed_for_cycle_step mc (main_scan mc n) (Z.of_nat n)
                         (main_scan_inv mc n) Ha)) i q Hi).
Qed.

(** Along [main]'s scan, each retained array has exactly the keys of a
    whole cycle set: the [len] states visited from some state [s] with
    [advance^len s = s], [len] being the length stored at that rank. *)
Theorem scan_fingerprints_are_cycles (mc : ptr -> bitarray) (n i : nat) :
  match nth i (tested_cycle_bit_arrays (cache_of (main_scan mc n))) None with
  | Some q =>
      let len := nth i (saved_cycle_lengths (cache_of (main_scan mc n))) 0%nat in
      exists s, wf_state s /\ (1 <= len)%nat /\ Nat.iter len sfc8_advance s = s /\
        (forall k, 0 <= k ->
           test_bit (heap (main_scan mc n) q) k = true <->
           exists j, (j < len)%nat /\ k = encode_state (Nat.iter j sfc8_advance s))
  | None => True
  end.
Proof.
  destruct (nth i (tested_cycle_bit_arrays (cache_of (main_scan mc n))) None)
    as [q|] eqn:Eq; [|exact I].
  destruct (proj2 (main_scan_alias_fp mc n) i q Eq) as (s & Hs & Hh & Hl).
  cbv zeta. rewrite Hl, Hh. exists s.
  destruct (run_trace_cycle s Hs) as (H1 & H2 & _).
  split; [exact Hs | split; [lia | split; [exact H2 |]]].
  intros k Hk. apply run_trace_keys; assumption.
Qed.

(** Along [main]'s scan, [test_seed_for_cycle] always reports the length
    a fresh trace from the seed would give, whether the seed hits a retained
    array or is traced. *)
Theorem scan_reported_length_is_traced (mc : ptr -> bitarray) (n : nat) (seed : Z) :
  fst (fst (test_seed_for_cycle mc (main_scan mc n) seed)) =
  fst (run_trace zero_array (seed_state seed)).
Proof.
  set (st := main_scan mc n).
  destruct (check_existing_arrays (heap st) (cache_of st) (seed_state seed)) as [i|] eqn:E.
  - assert (Hres : fst (fst (test_seed_for_cycle mc st seed)) =
                   nth i (saved_cycle_lengths (cache_of st)) 0%nat).
    { cbv beta zeta delta [test_seed_for_cycle].
      destruct (Nat.ltb_spec 0 (saved_array_count (cache_of st))) as [Hc | Hc].
      - rewrite E. reflexivity.
      - exfalso. unfold check_existing_arrays in E.
        replace (saved_array_count (cache_of st)) with 0%nat in E by lia. discriminate. }
    rewrite Hres.
    unfold check_existing_arrays in E.
    destruct (check_loop_some _ _ _ _ _ _ E) as (_ & (p & Ep & Tp) & _).
    destruct (proj2 (main_scan_alias_fp mc n) i p Ep) as (s & Hs & Hh & Hl).
    fold st in Hh, Hl. rewrite Hl. rewrite Hh in Tp.
    apply (run_trace_keys s _ Hs (encode_state_nonneg _)) in Tp as (j & Hj & Ek).
    apply encode_state_inj in Ek; [| apply seed_state_wf | apply iter_advance_wf; exact Hs].
    rewrite Ek. symmetry. apply run_trace_on_cycle. exact Hs.
  - rewrite (test_seed_for_cycle_miss mc st seed E).
    destruct (run_trace zero_array (seed_state seed)) as [len fp].
    destruct (update_tested_cycles (cache_of st) (cycle_bit_array st) len)
      as [[[|] cc'] fr]; reflexivity.
Qed.

(** Along [main]'s scan, the record count and the length stored at each
    rank never decrease from one seed to the next. *)
Theorem scan_lengths_never_decrease (mc : ptr -> bitarray) (n i : nat) :
  (saved_array_count (cache_of (main_scan mc n)) <=
   saved_array_count (cache_of (main_scan mc (S n))))%nat /\
  (nth i (saved_cycle_lengths (cache_of (main_scan mc n))) 0 <=
   nth i (saved_cycle_lengths (cache_of (main_scan mc (S n)))) 0)%nat.
Proof.
  pose proof (main_scan_inv mc n) as Hinv.
  cbn [main_scan].
  destruct (test_seed_for_cycle_cache mc (main_scan mc n) (Z.of_nat n)) as [-> | (len & ->)].
  - split; lia.
  - destruct (update_tested_cycles_mono (cache_of (main_scan mc n))
                (cycle_bit_array (main_scan mc n)) len Hinv) as [H1 H2].
    split; [exact H1 | apply H2].
Qed.
